(** * Phi-lang validation kernel: a shallow embedding

    The repository holds successive variants of one validation kernel
    (the V-star engine): [phi_kernel_poc.py], [phi_full_system.py],
    [phi_modular_system.py] and [phi_import_system.py].  The last one,
    whose validator follows imports, is embedded in full; of the kernel
    proof of concept and of the modular variant the parts are embedded
    that differ from it and that a statement below is about.

    Python objects are shared and mutable, so [Rule] and [Module]
    instances live in stores indexed by reference (a [nat]); a list of
    rules or of imports is a list of references.  Callables (the
    transformation under test, the predicates of rules) are total
    functions of their operands that leave the store alone; their result
    says whether the call raised.  What a function prints is returned as a
    list of events.  The recursion limit of the interpreter is not
    modelled. *)

From Stdlib Require Import Ascii String.
From stdpp Require Import gmap strings list fin_maps.

Inductive RuleType := HARD | SOFT.

Global Instance RuleType_eq_dec : EqDecision RuleType.
Proof. solve_decision. Defined.

(** [for x in xs: body] over a state that the body may fail to produce. *)
Fixpoint for_each {A S : Type} (body : A → S → option S) (xs : list A) (s : S)
  : option S :=
  match xs with
  | [] => Some s
  | x :: xs' =>
      match body x s with
      | Some s' => for_each body xs' s'
      | None => None
      end
  end.


(** What the registry and the parser print. *)
Inductive Message :=
| MAnalysis
| MCreating (name : string)
| MImport (imp_name into : string)
| MImportError (imp_name : string)
| MRuleAdded (name : string).

(** * Python string operations used by the parser

    A Rocq [string] stands for a Python [str] of ASCII characters.  On a
    character above 127 [isspace] and [isword] answer [false], while
    Python's [str.strip] and the classes [\s] and [\w] of [re] on a [str]
    follow Unicode (an accented letter is a word character there): the
    model is that of the parser on ASCII text, the text [isascii] holds
    of. *)
Module PyStr.

(** [c.isascii()] *)
Definition isascii (c : ascii) : bool := nat_of_ascii c <? 128.

Definition isspace (c : ascii) : bool :=
  let n := nat_of_ascii c in
  ((9 <=? n) && (n <=? 13)) || ((28 <=? n) && (n <=? 32)).

(** The class [\w]. *)
Definition isword (c : ascii) : bool :=
  let n := nat_of_ascii c in
  ((48 <=? n) && (n <=? 57)) || ((65 <=? n) && (n <=? 90))
  || ((97 <=? n) && (n <=? 122)) || (n =? 95).

Fixpoint take_while (p : ascii → bool) (s : string) : string :=
  match s with
  | String c s' => if p c then String c (take_while p s') else EmptyString
  | EmptyString => EmptyString
  end.

Fixpoint drop_while (p : ascii → bool) (s : string) : string :=
  match s with
  | String c s' => if p c then drop_while p s' else s
  | EmptyString => EmptyString
  end.

Definition lstrip (s : string) : string := drop_while isspace s.
Definition rstrip (s : string) : string := String.rev (lstrip (String.rev s)).
Definition strip (s : string) : string := rstrip (lstrip s).

(** [s.startswith(p)], returning what follows the prefix. *)
Fixpoint drop_prefix (p s : string) : option string :=
  match p with
  | EmptyString => Some s
  | String a p' =>
      match s with
      | String b s' => if decide (a = b) then drop_prefix p' s' else None
      | EmptyString => None
      end
  end.

Definition startswith (s p : string) : bool :=
  match drop_prefix p s with Some _ => true | None => false end.

(** [sub in s] *)
Fixpoint contains (sub s : string) : bool :=
  startswith s sub ||
  match s with
  | String _ s' => contains sub s'
  | EmptyString => false
  end.

(** [s.split(sep)] for a separator of one character. *)
Fixpoint split (sep : ascii) (s : string) : list string :=
  match s with
  | EmptyString => [EmptyString]
  | String c s' =>
      if decide (c = sep) then EmptyString :: split sep s'
      else match split sep s' with
           | p :: ps => String c p :: ps
           | [] => [String c EmptyString]
           end
  end.

(** [s.split()]: the maximal runs of characters that are not
    whitespace. *)
Fixpoint split_ws (s : string) : list string :=
  match s with
  | EmptyString => []
  | String c s' =>
      if isspace c then split_ws s'
      else
        match s' with
        | EmptyString => [String c EmptyString]
        | String c' _ =>
            if isspace c' then String c EmptyString :: split_ws s'
            else match split_ws s' with
                 | w :: ws => String c w :: ws
                 | [] => [String c EmptyString]
                 end
        end
  end.

(** An attempt to match [kw\s+(\w+)] at the start of [s]; the answer
    is group 1.  The two classes are disjoint, so the greedy match is
    the only one. *)
Definition match_kw (kw s : string) : option string :=
  match drop_prefix kw s with
  | None => None
  | Some rest =>
      match rest with
      | EmptyString => None
      | String c _ =>
          if isspace c then
            match take_while isword (drop_while isspace rest) with
            | EmptyString => None
            | w => Some w
            end
          else None
      end
  end.

(** [re.search(kw + r"\s+(\w+)", s)]: the leftmost match. *)
Fixpoint search_kw (kw s : string) : option string :=
  match match_kw kw s with
  | Some w => Some w
  | None =>
      match s with
      | EmptyString => None
      | String _ s' => search_kw kw s'
      end
  end.

(** Shapes of strings, for the statements: all characters of [s] are
    in the class [p]; [s] is empty or starts outside the class. *)
Fixpoint all_in (p : ascii → bool) (s : string) : bool :=
  match s with
  | EmptyString => true
  | String c s' => p c && all_in p s'
  end.

Definition ends_class (p : ascii → bool) (s : string) : bool :=
  match s with
  | EmptyString => true
  | String c _ => negb (p c)
  end.

End PyStr.

(** The operands the parser's built-in predicates can tell apart. *)
Inductive PyVal :=
| PyInt (z : Z)
| PyStr (s : string)
| PyNone.

(** * phi_import_system.py *)
Module ImportSystem.

Section Kernel.
(** Operands, results of the transformation and raised exceptions are
    opaque to the kernel. *)
Context {Value Res Exn : Type}.

(** [class Rule].  [logic args = None] when the call raises an
    [Exception]; otherwise the truth value of what it returns. *)
Record Rule := mkRule {
  name : string;
  kind : RuleType;
  logic : list Value → option bool;
  source_module : string;
  active : bool
}.

(** [class Module]; [rules] and [imports] hold references to [Rule] and
    [Module] objects.  The [generators] dictionary is never written or
    read in this variant and is left out. *)
Record PhiModule := mkModule {
  mod_name : string;
  rules : list nat;
  imports : list nat
}.

(** The object store. *)
Record Heap := mkHeap {
  rule_objs : list Rule;
  module_objs : list PhiModule
}.

(** [class PhiSystem]. *)
Record PhiSystem := mkSystem {
  modules : gmap string nat;
  current_module : option nat
}.

Definition set_active (b : bool) (r : Rule) : Rule :=
  {| name := name r; kind := kind r; logic := logic r;
     source_module := source_module r; active := b |}.

(** [rule.active = False] on the shared object. *)
Definition deactivate (ref : nat) (h : Heap) : Heap :=
  {| rule_objs := alter (set_active false) ref (rule_objs h);
     module_objs := module_objs h |}.

Definition get_module (system : PhiSystem) (name : string) : option nat :=
  modules system !! name.

(** ** PhiSystem.create_module *)
Definition create_module (name : string) (system : PhiSystem) (h : Heap)
  : nat * PhiSystem * Heap * list Message :=
  match modules system !! name with
  | Some m =>
      (m, {| modules := modules system; current_module := Some m |}, h, [])
  | None =>
      let mod_ := length (module_objs h) in
      (mod_,
       {| modules := <[name := mod_]> (modules system);
          current_module := Some mod_ |},
       {| rule_objs := rule_objs h;
          module_objs := module_objs h ++ [mkModule name [] []] |},
       [MCreating name])
  end.

(** [Rule(name, kind, logic, source_module)]: a fresh object, active. *)
Definition new_rule (name : string) (kind : RuleType)
    (logic : list Value → option bool) (source_module : string) (h : Heap)
  : nat * Heap :=
  (length (rule_objs h),
   {| rule_objs := rule_objs h ++ [mkRule name kind logic source_module true];
      module_objs := module_objs h |}).

(** [Module.add_rule] and [Module.add_import] on the object [module]. *)
Definition add_rule (module rule : nat) (h : Heap) : Heap :=
  {| rule_objs := rule_objs h;
     module_objs :=
       alter (λ m, mkModule (mod_name m) (rules m ++ [rule]) (imports m))
             module (module_objs h) |}.

Definition add_import (module imp : nat) (h : Heap) : Heap :=
  {| rule_objs := rule_objs h;
     module_objs :=
       alter (λ m, mkModule (mod_name m) (rules m) (imports m ++ [imp]))
             module (module_objs h) |}.

(** ** Validator._collect_rules

    [collected_rules] and [visited] are the two mutable arguments; the
    function returns their final contents.  [None]: a dangling reference
    or not enough fuel, neither of which a Python run can show. *)
Fixpoint _collect_rules (fuel : nat) (mods : list PhiModule) (module : nat)
    (st : list nat * gset string) : option (list nat * gset string) :=
  match fuel with
  | 0 => None
  | S fuel' =>
      match mods !! module with
      | None => None
      | Some m =>
          if decide (mod_name m ∈ st.2) then Some st
          else
            for_each (λ imp_mod st', _collect_rules fuel' mods imp_mod st')
                     (imports m)
                     (st.1 ++ rules m, {[mod_name m]} ∪ st.2)
      end
  end.

(** [all_rules = []; self._collect_rules(target_module, all_rules, set())] *)
Definition collect_all (mods : list PhiModule) (target_module : nat)
  : option (list nat) :=
  fst <$> _collect_rules (S (length mods)) mods target_module ([], ∅).

(** What [validate] prints. *)
Inductive Event :=
| EModuleNotFound (module_name : string)
| EValidation (module_name : string)
| EFunction (func_name : string)
| EResult (result : Res)
| EExecutionError (e : Exn)
| EAudit (n : nat)
| EConflict (rule_name source : string)
| EStop
| EAIFix
| EAccept.

(** How the verification loop (step 3) is left. *)
Inductive LoopExit :=
| LoopDone
| LoopHard (rule : Rule)
| LoopSoft (ref : nat) (rule : Rule).

(** [for rule in all_rules: ...] up to the first [return]. *)
Fixpoint verify (h : Heap) (args : list Value) (all_rules : list nat)
  : option LoopExit :=
  match all_rules with
  | [] => Some LoopDone
  | ref :: rest =>
      match rule_objs h !! ref with
      | None => None
      | Some rule =>
          if negb (active rule) then verify h args rest
          else
            match logic rule args with
            | None => verify h args rest
            | Some true => verify h args rest
            | Some false =>
                match kind rule with
                | HARD => Some (LoopHard rule)
                | SOFT => Some (LoopSoft ref rule)
                end
            end
      end
  end.

(** ** Validator.validate *)
Fixpoint validate_fuel (fuel : nat) (module_name func_name : string)
    (func : list Value → Res + Exn) (args : list Value)
    (system : PhiSystem) (h : Heap) : option (bool * Heap * list Event) :=
  match fuel with
  | 0 => None
  | S fuel' =>
      match get_module system module_name with
      | None => Some (false, h, [EModuleNotFound module_name])
      | Some target_module =>
          let hdr := [EValidation module_name; EFunction func_name] in
          match func args with
          | inr e => Some (false, h, hdr ++ [EExecutionError e])
          | inl result =>
              match collect_all (module_objs h) target_module with
              | None => None
              | Some all_rules =>
                  let out := hdr ++ [EResult result; EAudit (length all_rules)] in
                  match verify h args all_rules with
                  | None => None
                  | Some LoopDone => Some (true, h, out ++ [EAccept])
                  | Some (LoopHard rule) =>
                      Some (false, h,
                            out ++ [EConflict (name rule) (source_module rule); EStop])
                  | Some (LoopSoft ref rule) =>
                      match validate_fuel fuel' module_name func_name func args
                                          system (deactivate ref h) with
                      | None => None
                      | Some (verdict, h', out') =>
                          Some (verdict, h',
                                out ++ [EConflict (name rule) (source_module rule); EAIFix]
                                    ++ out')
                      end
                  end
              end
          end
      end
  end.

(** Every recursive call follows the deactivation of a rule that was
    active, so one more unit of fuel than there are rule objects is
    enough (see [validate_fuel_enough]). *)
Definition validate (module_name func_name : string)
    (func : list Value → Res + Exn) (args : list Value)
    (system : PhiSystem) (h : Heap) : option (bool * Heap * list Event) :=
  validate_fuel (S (length (rule_objs h))) module_name func_name func args system h.

End Kernel.

Arguments Rule : clear implicits.
Arguments Heap : clear implicits.
Arguments Event : clear implicits.
Arguments LoopExit : clear implicits.

(** ** PhiParser *)

(** [_resolve_logic]: [lambda a, b: b != 0], [lambda a: a > 0] and
    [lambda *args: True].  A call with the wrong number of operands, or
    an ordering test on a string or [None], raises [TypeError]. *)
Definition _resolve_logic (name : string) : list PyVal → option bool :=
  if decide (name = "nonzero") then
    λ args, match args with
            | [_; b] => Some (match b with PyInt z => negb (z =? 0)%Z | _ => true end)
            | _ => None
            end
  else if decide (name = "positive") then
    λ args, match args with
            | [PyInt z] => Some (0 <? z)%Z
            | _ => None
            end
  else λ _, Some true.

Definition ParseState : Type := PhiSystem * Heap PyVal * list Message.

(** [_parse_instruction]; called with a current module.  [None]: the
    [IndexError] of [parts[1]] or of [header.split()[1]]. *)
Definition _parse_instruction (line : string) (st : ParseState)
  : option ParseState :=
  let '(system, h, out) := st in
  if PyStr.startswith line "data" then Some st
  else if PyStr.startswith line "axiom" then
    match PyStr.split ":"%char line with
    | part0 :: part1 :: _ =>
        let header := PyStr.strip part0 in
        let body := PyStr.strip part1 in
        match PyStr.split_ws header with
        | _ :: name :: _ =>
            let kind := if PyStr.contains "soft" body then SOFT else HARD in
            let logic := _resolve_logic name in
            cur ← current_module system;
            m ← module_objs h !! cur;
            let '(rule, h1) := new_rule name kind logic (mod_name m) h in
            Some (system, add_rule cur rule h1, out ++ [MRuleAdded name])
        | _ => None
        end
    | _ => None
    end
  else Some st.

(** The body of the loop of [parse]. *)
Definition parse_line (line : string) (st : ParseState) : option ParseState :=
  let '(system, h, out) := st in
  let line := PyStr.strip line in
  if decide (line = "") then Some st
  else if PyStr.startswith line "//" then Some st
  else if PyStr.startswith line "module" then
    match PyStr.search_kw "module" line with
    | Some name =>
        let '(_, system', h', msgs) := create_module name system h in
        Some (system', h', out ++ msgs)
    | None => Some st
    end
  else if PyStr.startswith line "import" then
    match PyStr.search_kw "import" line, current_module system with
    | Some imp_name, Some cur =>
        match get_module system imp_name with
        | Some imp_mod =>
            m ← module_objs h !! cur;
            Some (system, add_import cur imp_mod h,
                  out ++ [MImport imp_name (mod_name m)])
        | None => Some (system, h, out ++ [MImportError imp_name])
        end
    | _, _ => Some st
    end
  else
    match current_module system with
    | Some _ => _parse_instruction line st
    | None => Some st
    end.

Definition parse (code : string) (system : PhiSystem) (h : Heap PyVal)
  : option ParseState :=
  for_each parse_line (PyStr.split "010"%char code) (system, h, [MAnalysis]).

(** [PhiSystem()] and an empty store. *)
Definition empty_system : PhiSystem := {| modules := ∅; current_module := None |}.
Definition empty_heap {Value} : Heap Value := {| rule_objs := []; module_objs := [] |}.

(** ** Vocabulary of the statements *)
Section Vocabulary.
Context {Value Res Exn : Type}.

(** No module object holds a reference outside the store (Python
    references never dangle). *)
Definition heap_ok (h : Heap Value) : bool :=
  forallb (λ m, forallb (λ r, r <? length (rule_objs h)) (rules m)
                && forallb (λ i, i <? length (module_objs h)) (imports m))
          (module_objs h).

(** Nor does the registry. *)
Definition system_ok (system : PhiSystem) (h : Heap Value) : bool :=
  bool_decide (map_Forall (λ _ m, m < length (module_objs h)) (modules system)).

(** Module objects have pairwise different names, as when every one of
    them was made by [create_module]. *)
Definition names_unique (mods : list PhiModule) : bool :=
  bool_decide (NoDup (mod_name <$> mods)).

(** The state the registry keeps: module objects hold valid references
    and are registered under their names, and the registry and the current
    module refer to module objects. *)
Definition store_ok (system : PhiSystem) (h : Heap Value) : Prop :=
  (∀ i m, module_objs h !! i = Some m →
     Forall (λ r, r < length (rule_objs h)) (rules m)
     ∧ Forall (λ j, j < length (module_objs h)) (imports m)
     ∧ modules system !! mod_name m = Some i)
  ∧ (∀ name i, modules system !! name = Some i → i < length (module_objs h))
  ∧ (∀ c, current_module system = Some c → c < length (module_objs h)).

Definition rules_of (mods : list PhiModule) (i : nat) : list nat :=
  match mods !! i with Some m => rules m | None => [] end.

(** [j] is a direct import of [i]; the import graph. *)
Definition imports_edge (mods : list PhiModule) (i j : nat) : Prop :=
  ∃ m, mods !! i = Some m ∧ j ∈ imports m.

Definition reachable (mods : list PhiModule) : nat → nat → Prop :=
  rtc (imports_edge mods).

(** Depth-first preorder, after the words of the specification: the
    targets are taken in order; a target whose name is in the visited
    set is skipped; any other is marked, comes next in the order and is
    followed by the traversal of its imports, in declaration order.
    [dfs_preorder mods V targets order V']: from the visited set [V] the
    traversal of [targets] visits [order] and leaves [V']. *)
Inductive dfs_preorder (mods : list PhiModule)
  : gset string → list nat → list nat → gset string → Prop :=
| dfs_nil V : dfs_preorder mods V [] [] V
| dfs_skip V i m targets order V' :
    mods !! i = Some m →
    mod_name m ∈ V →
    dfs_preorder mods V targets order V' →
    dfs_preorder mods V (i :: targets) order V'
| dfs_visit V i m targets below V1 order V' :
    mods !! i = Some m →
    mod_name m ∉ V →
    dfs_preorder mods ({[mod_name m]} ∪ V) (imports m) below V1 →
    dfs_preorder mods V1 targets order V' →
    dfs_preorder mods V (i :: targets) (i :: below ++ order) V'.

Definition is_active (h : Heap Value) (ref : nat) : bool :=
  match rule_objs h !! ref with
  | Some rule => active rule
  | None => false
  end.

Definition is_active_soft (h : Heap Value) (ref : nat) : bool :=
  match rule_objs h !! ref with
  | Some rule => active rule && bool_decide (kind rule = SOFT)
  | None => false
  end.

(** The active rules the collector reaches from a module object. *)
Definition active_reachable (h : Heap Value) (target_module : nat) : list nat :=
  match collect_all (module_objs h) target_module with
  | Some all_rules => List.filter (is_active h) all_rules
  | None => []
  end.

(** The number of active soft rules the collector reaches from the
    module registered as [module_name]. *)
Definition soft_reachable (system : PhiSystem) (module_name : string)
    (h : Heap Value) : nat :=
  match get_module system module_name with
  | Some target_module =>
      match collect_all (module_objs h) target_module with
      | Some all_rules =>
          size (list_to_set (List.filter (is_active_soft h) all_rules) : gset nat)
      | None => 0
      end
  | None => 0
  end.

Definition count_active (l : list (Rule Value)) : nat :=
  length (List.filter active l).

Definition count_events (p : Event Res Exn → bool) (out : list (Event Res Exn))
  : nat := length (List.filter p out).

(** Each pass prints one validation header, each restart one fix line. *)
Definition passes (out : list (Event Res Exn)) : nat :=
  count_events (λ e, match e with EValidation _ => true | _ => false end) out.

Definition restarts (out : list (Event Res Exn)) : nat :=
  count_events (λ e, match e with EAIFix => true | _ => false end) out.

(** The transformation is called once for each of these. *)
Definition executions (out : list (Event Res Exn)) : nat :=
  count_events (λ e, match e with
                     | EResult _ | EExecutionError _ => true
                     | _ => false
                     end) out.

(** A rule object is as it was, or was active and differs by its
    [active] attribute, now false. *)
Definition rule_kept_or_deactivated (rule rule' : Rule Value) : Prop :=
  rule' = rule ∨ (active rule = true ∧ rule' = set_active false rule).

Definition only_deactivated (h h' : Heap Value) : Prop :=
  module_objs h' = module_objs h ∧
  Forall2 rule_kept_or_deactivated (rule_objs h) (rule_objs h').

(** The arguments of a call of [validate]. *)
Record Call := mkCall {
  call_module : string;
  call_name : string;
  call_func : list Value → Res + Exn;
  call_args : list Value;
  call_system : PhiSystem
}.

(** Calls of [validate] one after the other on the same store, as the
    script makes them. *)
Fixpoint validate_each (calls : list Call) (h : Heap Value)
  : option (list bool * Heap Value) :=
  match calls with
  | [] => Some ([], h)
  | c :: calls' =>
      match validate (call_module c) (call_name c) (call_func c) (call_args c)
                     (call_system c) h with
      | None => None
      | Some (verdict, h1, _) =>
          match validate_each calls' h1 with
          | None => None
          | Some (verdicts, h') => Some (verdict :: verdicts, h')
          end
      end
  end.

End Vocabulary.

(** ** Vocabulary of further statements *)
Section Scan.
Context {Value : Type}.

(** One scan of the rule list that relaxes a violated soft rule and goes
    on with the next rule, instead of starting over; for comparison with
    [validate].  It answers the verdict and the store it leaves. *)
Fixpoint settle (h : Heap Value) (args : list Value) (all_rules : list nat)
  : option (bool * Heap Value) :=
  match all_rules with
  | [] => Some (true, h)
  | ref :: rest =>
      match rule_objs h !! ref with
      | None => None
      | Some rule =>
          if negb (active rule) then settle h args rest
          else
            match logic rule args with
            | None => settle h args rest
            | Some true => settle h args rest
            | Some false =>
                match kind rule with
                | HARD => Some (false, h)
                | SOFT => settle (deactivate ref h) args rest
                end
            end
      end
  end.

(** No rule reference is held twice, by one module or by two. *)
Definition rules_disjoint (mods : list PhiModule) : Prop :=
  NoDup (flat_map rules mods).

(** Every rule a module holds names that module as its source. *)
Definition provenance_ok (h : Heap Value) : Prop :=
  ∀ i m r, module_objs h !! i = Some m → r ∈ rules m →
    ∃ rule, rule_objs h !! r = Some rule ∧ source_module rule = mod_name m.

(** A registered name leads to a module object of that name. *)
Definition registry_exact (system : PhiSystem) (h : Heap Value) : Prop :=
  ∀ name i, modules system !! name = Some i →
    ∃ m, module_objs h !! i = Some m ∧ mod_name m = name.

(** The second state keeps all the first one holds: the rule objects as
    they are, every module object with its name and with its rules and
    imports as the first entries of the lists, every registered name
    with its object. *)
Definition store_extends (system : PhiSystem) (h : Heap Value)
    (system' : PhiSystem) (h' : Heap Value) : Prop :=
  rule_objs h `prefix_of` rule_objs h'
  ∧ (∀ i m, module_objs h !! i = Some m →
       ∃ m', module_objs h' !! i = Some m'
             ∧ mod_name m' = mod_name m
             ∧ rules m `prefix_of` rules m'
             ∧ imports m `prefix_of` imports m')
  ∧ (∀ name i, modules system !! name = Some i → modules system' !! name = Some i).

(** What the registry and the parser keep of a store. *)
Definition well_formed (system : PhiSystem) (h : Heap Value) : Prop :=
  store_ok system h ∧ rules_disjoint (module_objs h)
  ∧ provenance_ok h ∧ registry_exact system h.

End Scan.

End ImportSystem.

(** * phi_modular_system.py

    The earlier variant without imports.  Only the registry is embedded;
    the [generators] and [transformations] attributes of a module play no
    part in it and are left out. *)
Module ModularSystem.

Section Kernel.
Context {Value : Type}.

Record Rule := mkRule {
  name : string;
  kind : RuleType;
  logic : list Value → option bool;
  active : bool
}.

Record PhiModule := mkModule {
  mod_name : string;
  rules : list nat
}.

Record Heap := mkHeap {
  rule_objs : list Rule;
  module_objs : list PhiModule
}.

Record PhiSystem := mkSystem {
  modules : gmap string nat;
  current_module : option nat
}.

(** [PhiSystem.create_module]: [mod = Module(name)], then
    [self.modules[name] = mod], whatever the dictionary held. *)
Definition create_module (name : string) (system : PhiSystem) (h : Heap)
  : nat * PhiSystem * Heap * list Message :=
  let mod_ := length (module_objs h) in
  (mod_,
   {| modules := <[name := mod_]> (modules system);
      current_module := Some mod_ |},
   {| rule_objs := rule_objs h;
      module_objs := module_objs h ++ [mkModule name []] |},
   [MCreating name]).

Definition get_module (system : PhiSystem) (name : string) : option nat :=
  modules system !! name.

Definition new_rule (name : string) (kind : RuleType)
    (logic : list Value → option bool) (h : Heap) : nat * Heap :=
  (length (rule_objs h),
   {| rule_objs := rule_objs h ++ [mkRule name kind logic true];
      module_objs := module_objs h |}).

Definition add_rule (module rule : nat) (h : Heap) : Heap :=
  {| rule_objs := rule_objs h;
     module_objs :=
       alter (λ m, mkModule (mod_name m) (rules m ++ [rule]))
             module (module_objs h) |}.

End Kernel.

Arguments Rule : clear implicits.
Arguments Heap : clear implicits.

(** ** Validator.validate, on the rules of the module alone *)
Section Validator.
Context {Value Res Exn : Type}.

Definition set_active (b : bool) (r : Rule Value) : Rule Value :=
  {| name := name r; kind := kind r; logic := logic r; active := b |}.

Definition deactivate (ref : nat) (h : Heap Value) : Heap Value :=
  {| rule_objs := alter (set_active false) ref (rule_objs h);
     module_objs := module_objs h |}.

(** What [validate] prints. *)
Inductive Event :=
| EModuleNotFound (module_name : string)
| EValidation (module_name : string)
| EFunction (func_name : string)
| EResult (result : Res)
| EExecutionError (e : Exn)
| EOk (rule_name : string)
| EConflict (rule_name : string) (kind : RuleType)
| EStop
| EAIFix (module_name : string)
| EAccept (module_name : string).

Inductive LoopExit :=
| LoopDone
| LoopHard (rule : Rule Value)
| LoopSoft (ref : nat) (rule : Rule Value).

(** [for rule in target_module.rules: ...] up to the first [return],
    with the lines printed for the rules that hold. *)
Fixpoint verify (h : Heap Value) (args : list Value) (rules : list nat)
  : option (list Event * LoopExit) :=
  match rules with
  | [] => Some ([], LoopDone)
  | ref :: rest =>
      match rule_objs h !! ref with
      | None => None
      | Some rule =>
          if negb (active rule) then verify h args rest
          else
            match logic rule args with
            | None => verify h args rest
            | Some true =>
                match verify h args rest with
                | Some (out, exit) => Some (EOk (name rule) :: out, exit)
                | None => None
                end
            | Some false =>
                match kind rule with
                | HARD => Some ([], LoopHard rule)
                | SOFT => Some ([], LoopSoft ref rule)
                end
            end
      end
  end.

Fixpoint validate_fuel (fuel : nat) (module_name func_name : string)
    (func : list Value → Res + Exn) (args : list Value)
    (system : PhiSystem) (h : Heap Value)
  : option (bool * Heap Value * list Event) :=
  match fuel with
  | 0 => None
  | S fuel' =>
      match get_module system module_name with
      | None => Some (false, h, [EModuleNotFound module_name])
      | Some target_module =>
          let hdr := [EValidation module_name; EFunction func_name] in
          match func args with
          | inr e => Some (false, h, hdr ++ [EExecutionError e])
          | inl result =>
              match module_objs h !! target_module with
              | None => None
              | Some m =>
                  match verify h args (rules m) with
                  | None => None
                  | Some (oks, LoopDone) =>
                      Some (true, h,
                            hdr ++ [EResult result] ++ oks ++ [EAccept module_name])
                  | Some (oks, LoopHard rule) =>
                      Some (false, h,
                            hdr ++ [EResult result] ++ oks
                                ++ [EConflict (name rule) (kind rule); EStop])
                  | Some (oks, LoopSoft ref rule) =>
                      match validate_fuel fuel' module_name func_name func args
                                          system (deactivate ref h) with
                      | None => None
                      | Some (verdict, h', out') =>
                          Some (verdict, h',
                                hdr ++ [EResult result] ++ oks
                                    ++ [EConflict (name rule) (kind rule);
                                        EAIFix module_name]
                                    ++ out')
                      end
                  end
              end
          end
      end
  end.

(** As in the import variant, one more unit of fuel than there are rule
    objects is enough. *)
Definition validate (module_name func_name : string)
    (func : list Value → Res + Exn) (args : list Value)
    (system : PhiSystem) (h : Heap Value)
  : option (bool * Heap Value * list Event) :=
  validate_fuel (S (length (rule_objs h))) module_name func_name func args system h.

End Validator.

Arguments Event : clear implicits.
Arguments LoopExit : clear implicits.

(** ** class Matrix, with integer entries

    [v] is a list of rows; [None]: the [IndexError] of a missing row or
    entry. *)
Definition cell (v : list (list Z)) (i j : nat) : option Z :=
  row ← v !! i; row !! j.

(** [result[i][j] += x] *)
Definition add_to_cell (i j : nat) (x : Z) (result : list (list Z))
  : option (list (list Z)) :=
  row ← result !! i;
  old ← row !! j;
  Some (<[i := <[j := (old + x)%Z]> row]> result).

(** [Matrix.__mul__]: the three nested loops over [range(2)]. *)
Definition Matrix_mul (self other : list (list Z)) : option (list (list Z)) :=
  for_each (λ '(i, j, k) result,
              a ← cell self i k;
              b ← cell other k j;
              add_to_cell i j (a * b)%Z result)
           (i ← seq 0 2; j ← seq 0 2; k ← seq 0 2; [(i, j, k)])
           [[0; 0]; [0; 0]]%Z.

Definition empty_system : PhiSystem := {| modules := ∅; current_module := None |}.
Definition empty_heap {Value} : Heap Value := {| rule_objs := []; module_objs := [] |}.

End ModularSystem.

(** * phi_kernel_poc.py *)
Module KernelPoc.

Section Kernel.
Context {Value : Type}.

(** [class Rule]; [predicate args = None] when the call raises. *)
Record Rule := mkRule {
  name : string;
  predicate : list Value → option bool;
  kind : RuleType;
  active : bool
}.

(** [Rule.check] *)
Definition check (self : Rule) (args : list Value) : option bool :=
  if negb (active self) then Some true
  else predicate self args.

End Kernel.

Arguments Rule : clear implicits.

(** ** NeuralProposer and Validator *)
Section Validator.
Context {Value Res Exn : Type}.

Inductive Decision := RELAX_RULE | REJECT_TRANSFORMATION.

(** [NeuralProposer.propose_fix]; the [context] argument is not read. *)
Definition propose_fix (rule : Rule Value) : Decision :=
  match kind rule with
  | SOFT => RELAX_RULE
  | HARD => REJECT_TRANSFORMATION
  end.

Definition set_active (b : bool) (r : Rule Value) : Rule Value :=
  {| name := name r; predicate := predicate r; kind := kind r; active := b |}.

(** [class PhiContext], reduced to its rules: references into the store
    of rule objects, in registration order. *)
Record PhiContext := mkContext { rules : list nat }.

(** [PhiContext.register_rule] *)
Definition register_rule (rule : nat) (context : PhiContext) : PhiContext :=
  {| rules := rules context ++ [rule] |}.

(** What [validate_transformation] prints. *)
Inductive Event :=
| EValidation (func_name : string)
| ESuccess (result : Res)
| EExecutionError (e : Exn)
| EChecking (rule_name : string) (is_valid : bool)
| EConflict (func_name rule_name : string)
| ERelax (rule_name : string)
| EReject
| EAccept.

(** A call returns a verdict or lets the exception of a predicate
    through. *)
Inductive Outcome := Returned (verdict : bool) | Raised.

Inductive LoopExit :=
| LoopDone
| LoopReject (rule : Rule Value)
| LoopRelax (ref : nat) (rule : Rule Value)
| LoopRaise.

(** [for rule in context.rules: ...] up to the first [return] or
    exception; [rule.check] is not guarded. *)
Fixpoint verify (h : list (Rule Value)) (func_name : string)
    (args : list Value) (rules : list nat) : option (list Event * LoopExit) :=
  match rules with
  | [] => Some ([], LoopDone)
  | ref :: rest =>
      match h !! ref with
      | None => None
      | Some rule =>
          if negb (active rule) then verify h func_name args rest
          else
            match check rule args with
            | None => Some ([], LoopRaise)
            | Some true =>
                match verify h func_name args rest with
                | Some (out, exit) => Some (EChecking (name rule) true :: out, exit)
                | None => None
                end
            | Some false =>
                let out := [EChecking (name rule) false;
                            EConflict func_name (name rule)] in
                match propose_fix rule with
                | RELAX_RULE => Some (out, LoopRelax ref rule)
                | REJECT_TRANSFORMATION => Some (out, LoopReject rule)
                end
            end
      end
  end.

(** [Validator.validate_transformation] on the store [h] of rule
    objects. *)
Fixpoint validate_transformation_fuel (fuel : nat) (func_name : string)
    (func : list Value → Res + Exn) (test_data : list Value)
    (context : PhiContext) (h : list (Rule Value))
  : option (Outcome * list (Rule Value) * list Event) :=
  match fuel with
  | 0 => None
  | S fuel' =>
      match func test_data with
      | inr e => Some (Returned false, h, [EValidation func_name; EExecutionError e])
      | inl result =>
          let hdr := [EValidation func_name; ESuccess result] in
          match verify h func_name test_data (rules context) with
          | None => None
          | Some (out, LoopDone) => Some (Returned true, h, hdr ++ out ++ [EAccept])
          | Some (out, LoopRaise) => Some (Raised, h, hdr ++ out)
          | Some (out, LoopReject rule) =>
              Some (Returned false, h, hdr ++ out ++ [EReject])
          | Some (out, LoopRelax ref rule) =>
              match validate_transformation_fuel fuel' func_name func test_data
                      context (alter (set_active false) ref h) with
              | None => None
              | Some (outcome, h', out') =>
                  Some (outcome, h', hdr ++ out ++ [ERelax (name rule)] ++ out')
              end
          end
      end
  end.

Definition validate_transformation (func_name : string)
    (func : list Value → Res + Exn) (test_data : list Value)
    (context : PhiContext) (h : list (Rule Value))
  : option (Outcome * list (Rule Value) * list Event) :=
  validate_transformation_fuel (S (length h)) func_name func test_data context h.

End Validator.

Arguments Event : clear implicits.
Arguments LoopExit : clear implicits.

(** ** class Matrix, with integer entries *)
Definition cell (v : list (list Z)) (i j : nat) : option Z :=
  row ← v !! i; row !! j.

(** [Matrix.__mul__]: the eight entries are read, then the product is
    built; [None]: the [IndexError] of a missing row or entry. *)
Definition Matrix_mul (self other : list (list Z)) : option (list (list Z)) :=
  a1 ← cell self 0 0; b1 ← cell self 0 1;
  c1 ← cell self 1 0; d1 ← cell self 1 1;
  a2 ← cell other 0 0; b2 ← cell other 0 1;
  c2 ← cell other 1 0; d2 ← cell other 1 1;
  Some [[a1 * a2 + b1 * c2; a1 * b2 + b1 * d2];
        [c1 * a2 + d1 * c2; c1 * b2 + d1 * d2]]%Z.

(** ** Vocabulary of the statements *)
Section Counting.
Context {Value Res Exn : Type}.

Definition count_active (h : list (Rule Value)) : nat :=
  length (List.filter active h).

(** The relaxations a call prints. *)
Definition relaxations (out : list (Event Res Exn)) : nat :=
  length (List.filter (λ e, match e with ERelax _ => true | _ => false end) out).

End Counting.

End KernelPoc.

(** * From the modular variant to the import variant

    A store of [phi_modular_system.py] read as a store of
    [phi_import_system.py]: the same rule and module objects, no imports,
    and [source] as the source of every rule. *)
Module Variants.

Section Lift.
Context {Value : Type}.

Definition lift_rule (source : string) (r : ModularSystem.Rule Value)
  : ImportSystem.Rule Value :=
  ImportSystem.mkRule (ModularSystem.name r) (ModularSystem.kind r)
                      (ModularSystem.logic r) source (ModularSystem.active r).

Definition lift_module (m : ModularSystem.PhiModule) : ImportSystem.PhiModule :=
  ImportSystem.mkModule (ModularSystem.mod_name m) (ModularSystem.rules m) [].

Definition lift_heap (source : string) (h : ModularSystem.Heap Value)
  : ImportSystem.Heap Value :=
  ImportSystem.mkHeap (lift_rule source <$> ModularSystem.rule_objs h)
                      (lift_module <$> ModularSystem.module_objs h).

Definition lift_system (system : ModularSystem.PhiSystem) : ImportSystem.PhiSystem :=
  ImportSystem.mkSystem (ModularSystem.modules system)
                        (ModularSystem.current_module system).

Definition lift_exit (source : string) (e : ModularSystem.LoopExit Value)
  : ImportSystem.LoopExit Value :=
  match e with
  | ModularSystem.LoopDone => ImportSystem.LoopDone
  | ModularSystem.LoopHard rule => ImportSystem.LoopHard (lift_rule source rule)
  | ModularSystem.LoopSoft ref rule =>
      ImportSystem.LoopSoft ref (lift_rule source rule)
  end.

End Lift.
End Variants.

(** * Sample stores

    The store the script of [phi_import_system.py] builds, extended by a
    second soft rule and by an import of [Finance] into [CoreMath] that
    closes a cycle; and the matching store of [phi_modular_system.py]. *)
Module Demo.
Import ImportSystem.

(** [lambda a, b: a < 100]; an ordering test on a string or [None]
    raises. *)
Definition bounded (args : list PyVal) : option bool :=
  match args with
  | [PyInt a; _] => Some (a <? 100)%Z
  | _ => None
  end.

Definition demo_heap : Heap PyVal :=
  {| rule_objs :=
       [ mkRule "nonzero" HARD (_resolve_logic "nonzero") "CoreMath" true;
         mkRule "positive" SOFT (_resolve_logic "positive") "Finance" true;
         mkRule "bounded" SOFT bounded "Finance" true ];
     module_objs :=
       [ mkModule "CoreMath" [0] [1];
         mkModule "Finance" [1; 2] [0] ] |}.

Definition demo_system : PhiSystem :=
  {| modules := <["Finance" := 1]> (<["CoreMath" := 0]> ∅);
     current_module := Some 0 |}.

(** [def multiply(a, b): return a * b] on integers. *)
Definition multiply (args : list PyVal) : Z + string :=
  match args with
  | [PyInt a; PyInt b] => inl (a * b)%Z
  | _ => inr "TypeError"
  end.

Definition demo_calls : list (@Call PyVal Z string) :=
  [ mkCall "Finance" "calc_roi" multiply [PyInt 200; PyInt 5] demo_system;
    mkCall "Finance" "calc_roi" multiply [PyInt 2; PyInt 0] demo_system;
    mkCall "CoreMath" "calc_roi" multiply [PyInt 300; PyInt 1] demo_system ].

(** The program text of the script. *)
Definition source_code : string :=
"
    // 1. Core Module (Foundation)
    module CoreMath {
        // HARD rule of the universe: don't divide by 0
        axiom nonzero : hard ( b != 0 )
    }

    // 2. Finance Module (Builds on CoreMath)
    module Finance {
        import CoreMath
        // Finance adds its own rules, e.g., amounts must be positive (but this is soft, because debts exist)
        axiom positive : soft ( a > 0 )
    }
    ".

(** A module that imports one declared further down. *)
Definition forward_import : string :=
"module Finance {
    import CoreMath
    axiom positive : soft ( a > 0 )
}
module CoreMath {
    axiom nonzero : hard ( b != 0 )
}".

(** [phi_modular_system.py]: a registry with module [Arithmetic] holding
    one rule. *)
Definition modular_system : ModularSystem.PhiSystem :=
  {| ModularSystem.modules := <["Arithmetic" := 0]> ∅;
     ModularSystem.current_module := Some 0 |}.

Definition modular_heap : ModularSystem.Heap PyVal :=
  {| ModularSystem.rule_objs :=
       [ModularSystem.mkRule "commutativity" HARD (λ _, Some true) true];
     ModularSystem.module_objs := [ModularSystem.mkModule "Arithmetic" [0]] |}.

(** [phi_modular_system.py]: the two modules of its script, the soft
    rule of the second being [bounded]. *)
Definition modular_system2 : ModularSystem.PhiSystem :=
  {| ModularSystem.modules := <["LinearAlgebra" := 1]> (<["Arithmetic" := 0]> ∅);
     ModularSystem.current_module := Some 1 |}.

Definition modular_heap2 : ModularSystem.Heap PyVal :=
  {| ModularSystem.rule_objs :=
       [ModularSystem.mkRule "commutativity" HARD (λ _, Some true) true;
        ModularSystem.mkRule "bounded" SOFT bounded true];
     ModularSystem.module_objs :=
       [ModularSystem.mkModule "Arithmetic" [0];
        ModularSystem.mkModule "LinearAlgebra" [1]] |}.

(** [phi_kernel_poc.py]: a context of two rules, the second with a
    predicate of one operand. *)
Definition poc_rules : list (KernelPoc.Rule PyVal) :=
  [KernelPoc.mkRule "identity_consistency" (λ _, Some true) HARD true;
   KernelPoc.mkRule "positive" (_resolve_logic "positive") SOFT true].

Definition poc_context : KernelPoc.PhiContext :=
  KernelPoc.register_rule 1 (KernelPoc.register_rule 0 (KernelPoc.mkContext [])).

End Demo.

(** * Facts about phi_import_system.py *)
Module ImportFacts.
Import ImportSystem.

(** ** Stores built through the registry *)
Section Stores.
Context {Value : Type}.
Implicit Types (h : Heap Value) (system : PhiSystem).

Lemma store_ok_flags system h :
  store_ok system h →
  heap_ok h = true ∧ system_ok system h = true
  ∧ names_unique (module_objs h) = true.
Proof.
  intros (Hm & Hs & _). split; [|split].
  - unfold heap_ok. apply forallb_forall. intros m Hin.
    apply list_elem_of_In, list_elem_of_lookup in Hin as [i Hi].
    destruct (Hm _ _ Hi) as (Hr & Hi' & _).
    apply andb_true_iff. split; apply forallb_forall; intros x Hx;
      apply Nat.ltb_lt.
    + rewrite Forall_forall in Hr. by apply Hr, list_elem_of_In.
    + rewrite Forall_forall in Hi'. by apply Hi', list_elem_of_In.
  - apply bool_decide_eq_true. intros name i. apply Hs.
  - apply bool_decide_eq_true, NoDup_alt. intros i j x.
    rewrite !list_lookup_fmap.
    destruct (module_objs h !! i) as [mi|] eqn:Ei; [|done].
    destruct (module_objs h !! j) as [mj|] eqn:Ej; [|done].
    simpl. intros [= <-] [= E].
    destruct (Hm _ _ Ei) as (_ & _ & Hi), (Hm _ _ Ej) as (_ & _ & Hj).
    congruence.
Qed.

Lemma store_ok_empty : store_ok empty_system (empty_heap (Value := Value)).
Proof. split; [|split]; done. Qed.

Lemma create_module_ok name system h :
  store_ok system h →
  store_ok (create_module name system h).1.1.2 (create_module name system h).1.2.
Proof.
  intros (Hm & Hs & Hc). unfold create_module, store_ok.
  destruct (modules system !! name) as [m|] eqn:E; simpl.
  - split; [done|]. split; [done|]. intros c [= <-]. by eapply Hs.
  - split; [|split].
    + intros i m Hi. rewrite length_app. simpl.
      apply lookup_app_Some in Hi as [Hi|[Hlen Hi]].
      * destruct (Hm _ _ Hi) as (Hr & Himp & Hn). split; [done|]. split.
        -- eapply Forall_impl; [exact Himp|]. simpl. lia.
        -- rewrite lookup_insert_ne; [done|]. intros Heq.
           rewrite <- Heq in Hn. congruence.
      * apply list_lookup_singleton_Some in Hi as [Hi <-]. simpl.
        split; [done|]. split; [done|].
        rewrite lookup_insert_eq. f_equal. lia.
    + intros n i Hi. rewrite length_app. simpl.
      apply lookup_insert_Some in Hi as [[_ <-]|[_ Hi]]; [lia|].
      apply Hs in Hi. lia.
    + intros c [= <-]. rewrite length_app. simpl. lia.
Qed.

Lemma add_import_ok system h cur imp :
  store_ok system h → imp < length (module_objs h) →
  store_ok system (add_import cur imp h).
Proof.
  intros (Hm & Hs & Hc) Himp. unfold add_import, store_ok.
  split; [|split]; simpl; try rewrite length_alter; [|done..].
  intros i m. rewrite list_lookup_alter. case_decide as Hd.
  - subst i. destruct (module_objs h !! cur) as [m0|] eqn:E; [|done].
    simpl. intros [= <-]. simpl.
    destruct (Hm _ _ E) as (Hr & Hi & Hn). split; [done|]. split; [|done].
    apply Forall_app. split; [done|]. by constructor.
  - apply Hm.
Qed.

Lemma add_rule_ok system h cur name kind logic source :
  store_ok system h →
  store_ok system (add_rule cur (new_rule name kind logic source h).1
                            (new_rule name kind logic source h).2).
Proof.
  intros (Hm & Hs & Hc). unfold add_rule, new_rule, store_ok.
  split; [|split]; simpl; try rewrite length_alter; [|done..].
  intros i m. rewrite length_app, list_lookup_alter. simpl. case_decide as Hd.
  - subst i. destruct (module_objs h !! cur) as [m0|] eqn:E; [|done].
    simpl. intros [= <-]. simpl.
    destruct (Hm _ _ E) as (Hr & Hi & Hn). split; [|done].
    apply Forall_app. split.
    + eapply Forall_impl; [exact Hr|]. simpl. lia.
    + constructor; [lia|done].
  - intros Hi. destruct (Hm _ _ Hi) as (Hr & Hi' & Hn). split; [|done].
    eapply Forall_impl; [exact Hr|]. simpl. lia.
Qed.

End Stores.

Lemma parse_instruction_ok line system (h : Heap PyVal) out system' h' out' :
  store_ok system h →
  _parse_instruction line (system, h, out) = Some (system', h', out') →
  store_ok system' h'.
Proof.
  intros Hok. unfold _parse_instruction.
  destruct (PyStr.startswith line "data"); [by intros [= <- <- <-]|].
  destruct (PyStr.startswith line "axiom"); [|by intros [= <- <- <-]].
  destruct (PyStr.split ":" line) as [|part0 [|part1 parts]]; try done.
  destruct (PyStr.split_ws (PyStr.strip part0)) as [|w0 [|name ws]]; try done.
  destruct (current_module system) as [cur|]; [|done]. simpl.
  destruct (module_objs h !! cur) as [m|]; [|done]. simpl.
  intros [= <- <- <-]. by apply add_rule_ok.
Qed.

Lemma parse_line_ok line (st st' : ParseState) :
  store_ok st.1.1 st.1.2 → parse_line line st = Some st' →
  store_ok st'.1.1 st'.1.2.
Proof.
  destruct st as [[system h] out], st' as [[system' h'] out']. simpl.
  intros Hok. unfold parse_line.
  destruct (decide (PyStr.strip line = "")); [by intros [= <- <- <-]|].
  destruct (PyStr.startswith _ "//"); [by intros [= <- <- <-]|].
  destruct (PyStr.startswith _ "module").
  { destruct (PyStr.search_kw "module" _) as [name|]; [|by intros [= <- <- <-]].
    pose proof (create_module_ok name system h Hok) as Hc.
    destruct (create_module name system h) as [[[m s1] h1] msgs]. simpl in Hc.
    by intros [= <- <- <-]. }
  destruct (PyStr.startswith _ "import").
  { destruct (PyStr.search_kw "import" _) as [imp_name|]; [|by intros [= <- <- <-]].
    destruct (current_module system) as [cur|]; [|by intros [= <- <- <-]].
    destruct (get_module system imp_name) as [imp_mod|] eqn:Hg;
      [|by intros [= <- <- <-]].
    destruct (module_objs h !! cur) as [m|]; [|done]. simpl.
    intros [= <- <- <-]. apply add_import_ok; [done|].
    destruct Hok as (_ & Hs & _). by eapply Hs. }
  destruct (current_module system) as [cur|] eqn:Ec; [|by intros [= <- <- <-]].
  intros H.
  apply (parse_instruction_ok (PyStr.strip line) system h out system' h' out');
    [done|].
  unfold _parse_instruction. rewrite Ec. exact H.
Qed.

Lemma for_each_parse_ok lines : ∀ (st st' : ParseState),
  store_ok st.1.1 st.1.2 → for_each parse_line lines st = Some st' →
  store_ok st'.1.1 st'.1.2.
Proof.
  induction lines as [|line lines IH]; intros st st' Hok H; simpl in H.
  - by injection H as <-.
  - destruct (parse_line line st) as [st1|] eqn:E; [|done].
    eapply IH; [|exact H]. by eapply parse_line_ok.
Qed.

(** Whatever the parser builds from a program text, starting from an
    empty registry, meets the conditions the statements about the
    collector and the validator ask of a store. *)
Lemma parse_builds_ok_store code system h out :
  parse code empty_system empty_heap = Some (system, h, out) →
  heap_ok h = true ∧ system_ok system h = true
  ∧ names_unique (module_objs h) = true.
Proof.
  intros H. apply store_ok_flags.
  apply (for_each_parse_ok _ (empty_system, empty_heap, [MAnalysis]) _
           store_ok_empty H).
Qed.


(** ** The collector *)
Section Collector.
Context (mods : list PhiModule).

Local Abbreviation mname i := (default EmptyString (mod_name <$> mods !! i)).
Local Abbreviation names order := (list_to_set ((λ i, mname i) <$> order) : gset string).

Lemma dfs_app V ts1 o1 V1 ts2 o2 V2 :
  dfs_preorder mods V ts1 o1 V1 →
  dfs_preorder mods V1 ts2 o2 V2 →
  dfs_preorder mods V (ts1 ++ ts2) (o1 ++ o2) V2.
Proof.
  induction 1 as [V|V i m ts o V' Hi Hin _ IH|V i m ts below V1' o V' Hi Hin Hb _ _ IH];
    intros H2; simpl.
  - done.
  - eapply dfs_skip; eauto.
  - rewrite <- app_assoc. eapply dfs_visit; eauto.
Qed.

Lemma for_each_dfs (body : nat → list nat * gset string → option (list nat * gset string)) :
  (∀ i st st', body i st = Some st' →
     ∃ order, dfs_preorder mods st.2 [i] order st'.2
              ∧ st'.1 = st.1 ++ flat_map (rules_of mods) order) →
  ∀ targets st st', for_each body targets st = Some st' →
     ∃ order, dfs_preorder mods st.2 targets order st'.2
              ∧ st'.1 = st.1 ++ flat_map (rules_of mods) order.
Proof.
  intros Hbody targets.
  induction targets as [|i targets IH]; intros st st' H; simpl in H.
  - injection H as <-. exists []. split; [constructor | by rewrite app_nil_r].
  - destruct (body i st) as [st1|] eqn:E; [|done].
    destruct (Hbody _ _ _ E) as (o1 & D1 & R1).
    destruct (IH _ _ H) as (o2 & D2 & R2).
    exists (o1 ++ o2). split.
    + apply (dfs_app _ [i] _ _ _ _ _ D1 D2).
    + rewrite R2, R1, flat_map_app, app_assoc. done.
Qed.

Lemma collect_sound fuel : ∀ i st st',
  _collect_rules fuel mods i st = Some st' →
  ∃ order, dfs_preorder mods st.2 [i] order st'.2
           ∧ st'.1 = st.1 ++ flat_map (rules_of mods) order.
Proof.
  induction fuel as [|fuel IH]; intros i st st' H; simpl in H; [done|].
  destruct (mods !! i) as [m|] eqn:Hm; [|done].
  destruct (decide (mod_name m ∈ st.2)) as [Hin|Hin].
  - injection H as <-. exists []. split.
    + eapply dfs_skip; eauto. constructor.
    + by rewrite app_nil_r.
  - apply (for_each_dfs _ IH) in H as (below & D & R). simpl in D, R.
    exists (i :: below ++ []). split.
    + eapply dfs_visit; eauto. constructor.
    + rewrite R, app_nil_r. simpl. unfold rules_of at 2. rewrite Hm.
      by rewrite app_assoc.
Qed.

Lemma dfs_visited V ts o V' :
  dfs_preorder mods V ts o V' → V' = V ∪ names o.
Proof.
  induction 1 as [V|V i m ts o V' Hi Hin _ IH|V i m ts below V1 o V' Hi Hin _ IHb _ IH].
  - set_solver.
  - done.
  - rewrite IH, IHb. rewrite fmap_cons, fmap_app. simpl. rewrite Hi. simpl.
    rewrite list_to_set_app_L. set_solver.
Qed.

Lemma dfs_valid V ts o V' :
  dfs_preorder mods V ts o V' →
  Forall (λ i, is_Some (mods !! i)) ts ∧ Forall (λ i, is_Some (mods !! i)) o.
Proof.
  induction 1 as [V|V i m ts o V' Hi Hin _ IH|V i m ts below V1 o V' Hi Hin _ IHb _ IH].
  - done.
  - destruct IH. split; [constructor|]; eauto.
  - destruct IH, IHb. split; constructor; eauto. apply Forall_app; eauto.
Qed.

Lemma dfs_fresh V ts o V' :
  dfs_preorder mods V ts o V' →
  NoDup ((λ i, mname i) <$> o) ∧ ∀ x, x ∈ o → mname x ∉ V.
Proof.
  induction 1 as [V|V i m ts o V' Hi Hin _ IH|V i m ts below V1 o V' Hi Hin Hb IHb _ IH].
  - split; [constructor | set_solver].
  - done.
  - destruct IH as [ND2 F2], IHb as [ND1 F1].
    apply dfs_visited in Hb. subst V1.
    assert (Hn : mname i = mod_name m) by (by rewrite Hi).
    split.
    + rewrite fmap_cons, fmap_app. apply NoDup_cons. split.
      * rewrite Hn. intros Hx. apply elem_of_app in Hx as [Hx|Hx];
          apply list_elem_of_fmap in Hx as (y & Hy & Hyo).
        -- apply F1 in Hyo. rewrite <- Hy in Hyo. set_solver.
        -- apply F2 in Hyo. rewrite <- Hy in Hyo. set_solver.
      * apply NoDup_app. split; [done|]. split; [|done].
        intros x Hx1 Hx2. apply list_elem_of_fmap in Hx2 as (y & -> & Hyo).
        apply F2 in Hyo. apply Hyo. apply elem_of_union_r.
        by apply elem_of_list_to_set.
    + intros x Hx. apply elem_of_cons in Hx as [->|Hx].
      * by rewrite Hn.
      * apply elem_of_app in Hx as [Hx|Hx].
        -- apply F1 in Hx. set_solver.
        -- apply F2 in Hx. set_solver.
Qed.

Lemma dfs_closed V ts o V' :
  dfs_preorder mods V ts o V' →
  (∀ t, t ∈ ts → mname t ∈ V') ∧
  (∀ x m j, x ∈ o → mods !! x = Some m → j ∈ imports m →
     is_Some (mods !! j) ∧ mname j ∈ V').
Proof.
  induction 1 as [V|V i m ts o V' Hi Hin Hr IH|V i m ts below V1 o V' Hi Hin Hb IHb Hr IH].
  - split; intros; set_solver.
  - destruct IH as [T C]. split; [|done].
    intros t Ht. apply elem_of_cons in Ht as [->|Ht]; [|eauto].
    apply dfs_visited in Hr. rewrite Hr, Hi. simpl. set_solver.
  - destruct IH as [T2 C2], IHb as [T1 C1].
    pose proof (dfs_visited _ _ _ _ Hr) as E2.
    pose proof (dfs_visited _ _ _ _ Hb) as E1.
    destruct (dfs_valid _ _ _ _ Hb) as [Vimp _]. rewrite Forall_forall in Vimp.
    split.
    + intros t Ht. apply elem_of_cons in Ht as [->|Ht]; [|eauto].
      rewrite Hi. simpl. set_solver.
    + intros x mx j Hx Hmx Hj. apply elem_of_cons in Hx as [->|Hx].
      * assert (mx = m) as -> by congruence.
        specialize (T1 _ Hj). split; [eauto | set_solver].
      * apply elem_of_app in Hx as [Hx|Hx]; [|eauto].
        destruct (C1 _ _ _ Hx Hmx Hj). split; [done | set_solver].
Qed.

Lemma dfs_reachable V ts o V' :
  dfs_preorder mods V ts o V' →
  ∀ x, x ∈ o → ∃ t, t ∈ ts ∧ reachable mods t x.
Proof.
  induction 1 as [V|V i m ts o V' Hi Hin Hr IH|V i m ts below V1 o V' Hi Hin Hb IHb Hr IH];
    intros x Hx.
  - set_solver.
  - destruct (IH _ Hx) as (t & Ht & R). exists t. split; [set_solver|done].
  - apply elem_of_cons in Hx as [->|Hx].
    + exists i. split; [set_solver | apply rtc_refl].
    + apply elem_of_app in Hx as [Hx|Hx].
      * destruct (IHb _ Hx) as (t & Ht & R). exists i. split; [set_solver|].
        eapply rtc_l; [|exact R]. by exists m.
      * destruct (IH _ Hx) as (t & Ht & R). exists t. split; [set_solver|done].
Qed.

Lemma unique_name a b ma mb :
  NoDup (mod_name <$> mods) →
  mods !! a = Some ma → mods !! b = Some mb → mod_name ma = mod_name mb → a = b.
Proof.
  intros ND Ha Hb E.
  eapply NoDup_lookup; [exact ND| |].
  - rewrite list_lookup_fmap, Ha. done.
  - rewrite list_lookup_fmap, Hb. simpl. by rewrite E.
Qed.

Lemma dfs_complete root o V' :
  NoDup (mod_name <$> mods) →
  dfs_preorder mods ∅ [root] o V' →
  ∀ j, reachable mods root j → j ∈ o.
Proof.
  intros ND D.
  pose proof (dfs_visited _ _ _ _ D) as EV.
  destruct (dfs_closed _ _ _ _ D) as [T C].
  destruct (dfs_valid _ _ _ _ D) as [Vt Vo].
  assert (Hname : ∀ k mk, mods !! k = Some mk → mname k ∈ V' → k ∈ o).
  { intros k mk Hk Hin. rewrite EV in Hin.
    apply elem_of_union in Hin as [Hin|Hin]; [set_solver|].
    apply elem_of_list_to_set, list_elem_of_fmap in Hin as (y & Hy & Hyo).
    rewrite Forall_forall in Vo. destruct (Vo _ Hyo) as [my Hmy].
    rewrite Hk, Hmy in Hy. simpl in Hy.
    by rewrite (unique_name k y mk my ND Hk Hmy Hy). }
  apply (rtc_ind_r (λ j, j ∈ o) root).
  - rewrite Forall_forall in Vt. destruct (Vt root) as [mr Hr]; [set_solver|].
    eapply Hname; eauto. apply T. set_solver.
  - intros j k _ (mj & Hj & Hk) IH.
    destruct (C _ _ _ IH Hj Hk) as [[mk Hmk] Hin]. eauto.
Qed.
Local Abbreviation all_names := (list_to_set (mod_name <$> mods) : gset string).

Lemma size_list_to_set_le (l : list string) :
  size (list_to_set l : gset string) ≤ length l.
Proof.
  induction l as [|x l IH].
  - rewrite list_to_set_nil, size_empty. simpl. lia.
  - rewrite list_to_set_cons, size_union_alt, size_singleton. simpl.
    assert (Hsub : list_to_set l ∖ {[x]} ⊆ (list_to_set l : gset string)) by set_solver.
    apply subseteq_size in Hsub. lia.
Qed.

Lemma collect_grows fuel i st st' :
  _collect_rules fuel mods i st = Some st' → st.2 ⊆ st'.2.
Proof.
  intros H. apply collect_sound in H as (o & D & _).
  apply dfs_visited in D. rewrite D. set_solver.
Qed.

Lemma for_each_total f
    (body : nat → list nat * gset string → option (list nat * gset string)) :
  (∀ i st, i < length mods → size (all_names ∖ st.2) < f → is_Some (body i st)) →
  (∀ i st st', body i st = Some st' → st.2 ⊆ st'.2) →
  ∀ targets st,
    Forall (λ i, i < length mods) targets →
    size (all_names ∖ st.2) < f →
    is_Some (for_each body targets st).
Proof.
  intros Htot Hmono targets.
  induction targets as [|i targets IH]; intros st Hv Hsz; simpl; [eauto|].
  apply Forall_cons in Hv as [Hi Hv].
  destruct (Htot i st Hi Hsz) as [st1 E]. rewrite E.
  apply IH; [done|]. apply Hmono in E.
  eapply Nat.le_lt_trans; [|exact Hsz].
  apply subseteq_size. set_solver.
Qed.

Lemma collect_total :
  Forall (λ m, Forall (λ i, i < length mods) (imports m)) mods →
  ∀ fuel i st,
    i < length mods → size (all_names ∖ st.2) < fuel →
    is_Some (_collect_rules fuel mods i st).
Proof.
  intros Himp fuel. induction fuel as [|fuel IH]; intros i st Hi Hsz; [lia|].
  simpl. destruct (lookup_lt_is_Some_2 _ _ Hi) as [m Hm]. rewrite Hm.
  destruct (decide (mod_name m ∈ st.2)) as [Hin|Hin]; [eauto|].
  apply (for_each_total fuel).
  - exact IH.
  - intros ? ? ?. apply collect_grows.
  - rewrite Forall_forall in Himp. apply Himp.
    by apply list_elem_of_lookup_2 in Hm.
  - simpl.
    assert (Hall : mod_name m ∈ all_names).
    { apply elem_of_list_to_set, list_elem_of_fmap. exists m. split; [done|].
      by apply list_elem_of_lookup_2 in Hm. }
    assert (Hsub : all_names ∖ ({[mod_name m]} ∪ st.2) ⊂ all_names ∖ st.2) by set_solver.
    apply subset_size in Hsub. lia.
Qed.

Lemma collect_all_total i :
  Forall (λ m, Forall (λ i, i < length mods) (imports m)) mods →
  i < length mods →
  is_Some (collect_all mods i).
Proof.
  intros Himp Hi. unfold collect_all.
  destruct (collect_total Himp (S (length mods)) i ([], ∅) Hi) as [st E].
  - simpl. pose proof (size_list_to_set_le (mod_name <$> mods)) as L.
    rewrite length_fmap in L.
    assert (Hsub : all_names ∖ ∅ ⊆ all_names) by set_solver.
    apply subseteq_size in Hsub. lia.
  - rewrite E. simpl. eauto.
Qed.

(** More fuel changes nothing. *)
Lemma for_each_ext {A S} (f g : A → S → option S) xs :
  (∀ x s s', f x s = Some s' → g x s = Some s') →
  ∀ s s', for_each f xs s = Some s' → for_each g xs s = Some s'.
Proof.
  intros Hfg. induction xs as [|x xs IH]; intros s s' H; simpl in *; [done|].
  destruct (f x s) as [s1|] eqn:E; [|done].
  rewrite (Hfg _ _ _ E). eauto.
Qed.

Lemma collect_fuel_mono fuel : ∀ fuel' i st st',
  fuel ≤ fuel' →
  _collect_rules fuel mods i st = Some st' →
  _collect_rules fuel' mods i st = Some st'.
Proof.
  induction fuel as [|fuel IH]; intros fuel' i st st' Hle H; [done|].
  destruct fuel' as [|fuel']; [lia|]. simpl in *.
  destruct (mods !! i) as [m|]; [|done].
  destruct (decide _); [done|].
  eapply for_each_ext; [|exact H].
  intros x s s'. apply IH. lia.
Qed.

End Collector.

Section CollectorClaims.
Context {Value : Type}.
Implicit Types (h : Heap Value).

Lemma heap_ok_imports h :
  heap_ok h = true →
  Forall (λ m, Forall (λ i, i < length (module_objs h)) (imports m)) (module_objs h).
Proof.
  unfold heap_ok. rewrite forallb_forall. intros H.
  apply Forall_forall. intros m Hm.
  apply list_elem_of_In, H, andb_true_iff in Hm as [_ H2].
  rewrite forallb_forall in H2. apply Forall_forall. intros x Hx.
  by apply Nat.ltb_lt, H2, list_elem_of_In.
Qed.

(** C4.  From a module object [root] of a store without dangling
    references and with pairwise different module names, the collector
    returns the rules of [root] in declaration order, followed by the
    rules of the modules met by the depth-first preorder traversal of its
    imports in declaration order; the modules that contribute are the
    ones reachable from [root] in the import graph, cyclic or not, each
    of them once. *)
Theorem collect_all_dfs_preorder h (root : nat) (m : PhiModule) :
  heap_ok h = true →
  names_unique (module_objs h) = true →
  module_objs h !! root = Some m →
  ∃ below V',
    collect_all (module_objs h) root
    = Some (rules m ++ flat_map (rules_of (module_objs h)) below)
    ∧ dfs_preorder (module_objs h) {[mod_name m]} (imports m) below V'
    ∧ NoDup (root :: below)
    ∧ ∀ j, j ∈ root :: below ↔ reachable (module_objs h) root j.
Proof.
  intros Hok Hun Hroot.
  apply heap_ok_imports in Hok.
  apply bool_decide_eq_true in Hun.
  assert (Hlt : root < length (module_objs h)) by (by eapply lookup_lt_Some).
  destruct (collect_all_total _ _ Hok Hlt) as [rs Hrs].
  unfold collect_all in Hrs.
  destruct (_collect_rules _ _ _ _) as [[c V']|] eqn:E; [|done].
  injection Hrs as <-.
  destruct (collect_sound _ _ _ _ _ E) as (o & D & R). simpl in D, R.
  assert (∃ below, o = root :: below ++ []
           ∧ dfs_preorder (module_objs h) ({[mod_name m]} ∪ ∅) (imports m) below V')
    as (below & -> & Db).
  { inversion D as [|? ? m' ? ? ? Hm' Hin|? ? m' ? b V1 o' ? Hm' Hin Hb Hn]; subst.
    - set_solver.
    - inversion Hn; subst. assert (m' = m) as -> by congruence. eauto. }
  rewrite app_nil_r in *. rewrite union_empty_r_L in Db.
  exists below, V'. split; [|split; [done|split]].
  - unfold collect_all. rewrite E. simpl. subst c. simpl.
    unfold rules_of at 1. by rewrite Hroot.
  - destruct (dfs_fresh _ _ _ _ _ D) as [ND _]. by apply NoDup_fmap_1 in ND.
  - intros j. split.
    + intros Hj. destruct (dfs_reachable _ _ _ _ _ D j Hj) as (t & Ht & Rt).
      apply list_elem_of_singleton in Ht. by subst t.
    + by apply (dfs_complete _ root _ V').
Qed.

(** The rules a reachable module object holds are collected. *)
Lemma reachable_rules_collected h root j mj all_rules :
  names_unique (module_objs h) = true →
  reachable (module_objs h) root j →
  module_objs h !! j = Some mj →
  collect_all (module_objs h) root = Some all_rules →
  rules mj ⊆ all_rules.
Proof.
  intros Hun Hreach Hj Hc. apply bool_decide_eq_true in Hun.
  unfold collect_all in Hc.
  destruct (_collect_rules _ _ _ _) as [[c V']|] eqn:E; [|done].
  injection Hc as <-.
  destruct (collect_sound _ _ _ _ _ E) as (o & D & R). simpl in *. subst c.
  pose proof (dfs_complete _ _ _ _ Hun D j Hreach) as Hin.
  intros r Hr. apply list_elem_of_In, in_flat_map. exists j.
  split; [by apply list_elem_of_In|].
  unfold rules_of. rewrite Hj. by apply list_elem_of_In.
Qed.

End CollectorClaims.
End ImportFacts.

Module ValidatorFacts.
Import ImportSystem ImportFacts.

Section Validator.
Context {Value Res Exn : Type}.
Implicit Types (h : Heap Value) (system : PhiSystem) (args : list Value)
  (func : list Value → Res + Exn) (rule : Rule Value).

Lemma heap_ok_spec h :
  heap_ok h = true →
  Forall (λ m, Forall (λ r, r < length (rule_objs h)) (rules m)) (module_objs h)
  ∧ Forall (λ m, Forall (λ i, i < length (module_objs h)) (imports m)) (module_objs h).
Proof.
  unfold heap_ok. rewrite forallb_forall. intros H.
  split; apply Forall_forall; intros m Hm;
    apply list_elem_of_In, H, andb_true_iff in Hm as [H1 H2];
    rewrite forallb_forall in H1, H2; apply Forall_forall; intros x Hx;
    apply list_elem_of_In in Hx.
  - by apply Nat.ltb_lt, H1.
  - by apply Nat.ltb_lt, H2.
Qed.

Lemma system_ok_spec system h module_name m :
  system_ok system h = true →
  get_module system module_name = Some m → m < length (module_objs h).
Proof.
  unfold system_ok, get_module. intros H Hm.
  apply bool_decide_eq_true in H. by apply (H module_name m).
Qed.

Lemma heap_ok_deactivate ref h : heap_ok (deactivate ref h) = heap_ok h.
Proof. unfold heap_ok, deactivate. simpl. by rewrite length_alter. Qed.

Lemma system_ok_deactivate system ref h :
  system_ok system (deactivate ref h) = system_ok system h.
Proof. done. Qed.

Lemma collected_valid h target all_rules :
  heap_ok h = true →
  collect_all (module_objs h) target = Some all_rules →
  Forall (λ r, r < length (rule_objs h)) all_rules.
Proof.
  intros Hok H. apply heap_ok_spec in Hok as [Hr _].
  unfold collect_all in H.
  destruct (_collect_rules _ _ _ _) as [st|] eqn:E; [|done].
  injection H as <-. apply collect_sound in E as (o & D & ->). simpl.
  apply Forall_forall. intros r Hr'.
  apply list_elem_of_In, in_flat_map in Hr' as (i & _ & Hi).
  unfold rules_of in Hi. destruct (module_objs h !! i) as [m|] eqn:Hm; [|done].
  rewrite Forall_forall in Hr.
  apply list_elem_of_lookup_2, Hr in Hm. rewrite Forall_forall in Hm.
  by apply Hm, list_elem_of_In.
Qed.

Lemma verify_total h args all_rules :
  Forall (λ r, r < length (rule_objs h)) all_rules →
  is_Some (verify h args all_rules).
Proof.
  induction 1 as [|ref rest Href _ IH]; simpl; [eauto|].
  destruct (lookup_lt_is_Some_2 _ _ Href) as [rule ->].
  destruct (active rule); simpl; [|done].
  destruct (logic rule args) as [[|]|]; try done.
  destruct (kind rule); eauto.
Qed.

Lemma verify_app h args before rest :
  verify h args before = Some LoopDone →
  verify h args (before ++ rest) = verify h args rest.
Proof.
  induction before as [|ref before IH]; simpl; [done|].
  destruct (rule_objs h !! ref) as [rule|]; [|done].
  destruct (active rule); simpl; [|done].
  destruct (logic rule args) as [[|]|]; try done.
  by destruct (kind rule).
Qed.

Lemma verify_soft h args all_rules ref rule :
  verify h args all_rules = Some (LoopSoft ref rule) →
  rule_objs h !! ref = Some rule ∧ active rule = true ∧ kind rule = SOFT
  ∧ logic rule args = Some false
  ∧ ∃ before after, all_rules = before ++ ref :: after
                    ∧ verify h args before = Some LoopDone.
Proof.
  induction all_rules as [|r0 rest IH]; simpl; [done|].
  destruct (rule_objs h !! r0) as [rule0|] eqn:E0; [|done].
  destruct (active rule0) eqn:Ea; simpl.
  - destruct (logic rule0 args) as [[|]|] eqn:El.
    + intros H. destruct (IH H) as (?&?&?&?&b&a&->&Hb).
      repeat split; try done. exists (r0 :: b), a. split; [done|].
      simpl. by rewrite E0, Ea, El.
    + destruct (kind rule0) eqn:Ek; [done|]. intros [= <- <-].
      repeat split; try done. by exists [], rest.
    + intros H. destruct (IH H) as (?&?&?&?&b&a&->&Hb).
      repeat split; try done. exists (r0 :: b), a. split; [done|].
      simpl. by rewrite E0, Ea, El.
  - intros H. destruct (IH H) as (?&?&?&?&b&a&->&Hb).
    repeat split; try done. exists (r0 :: b), a. split; [done|].
    simpl. by rewrite E0, Ea.
Qed.

Lemma verify_hard h args all_rules rule :
  verify h args all_rules = Some (LoopHard rule) →
  ∃ ref before after,
    all_rules = before ++ ref :: after
    ∧ verify h args before = Some LoopDone
    ∧ rule_objs h !! ref = Some rule ∧ active rule = true ∧ kind rule = HARD
    ∧ logic rule args = Some false.
Proof.
  induction all_rules as [|r0 rest IH]; simpl; [done|].
  destruct (rule_objs h !! r0) as [rule0|] eqn:E0; [|done].
  destruct (active rule0) eqn:Ea; simpl.
  - destruct (logic rule0 args) as [[|]|] eqn:El.
    + intros H. destruct (IH H) as (ref&b&a&->&Hb&?).
      exists ref, (r0 :: b), a. split; [done|]. split; [|done].
      simpl. by rewrite E0, Ea, El.
    + destruct (kind rule0) eqn:Ek; [|done]. intros [= <-].
      by exists r0, [], rest.
    + intros H. destruct (IH H) as (ref&b&a&->&Hb&?).
      exists ref, (r0 :: b), a. split; [done|]. split; [|done].
      simpl. by rewrite E0, Ea, El.
  - intros H. destruct (IH H) as (ref&b&a&->&Hb&?).
    exists ref, (r0 :: b), a. split; [done|]. split; [|done].
    simpl. by rewrite E0, Ea.
Qed.

Lemma verify_done h args all_rules ref rule :
  verify h args all_rules = Some LoopDone →
  ref ∈ all_rules → rule_objs h !! ref = Some rule →
  active rule = true → logic rule args = Some false → False.
Proof.
  induction all_rules as [|r0 rest IH]; simpl; intros H Hin Hl Ha Hf.
  - by apply elem_of_nil in Hin.
  - destruct (rule_objs h !! r0) as [rule0|] eqn:E0; [|done].
    apply elem_of_cons in Hin as [->|Hin].
    + assert (rule0 = rule) as -> by congruence.
      rewrite Ha, Hf in H. simpl in H. by destruct (kind rule).
    + destruct (active rule0); simpl in H; [|eauto].
      destruct (logic rule0 args) as [[|]|]; eauto.
      by destruct (kind rule0).
Qed.

Lemma count_active_le (l : list (Rule Value)) : count_active l ≤ length l.
Proof. apply List.filter_length_le. Qed.

Lemma count_active_alter (l : list (Rule Value)) ref rule :
  l !! ref = Some rule → active rule = true →
  S (count_active (alter (set_active false) ref l)) = count_active l.
Proof.
  unfold count_active.
  revert ref. induction l as [|r l IH]; intros [|ref] Hl Ha; simpl in *; try done.
  - injection Hl as ->. by rewrite Ha.
  - specialize (IH ref Hl Ha). unfold alter in IH.
    destruct (active r); simpl; lia.
Qed.

Lemma deactivate_lookup_ne h ref other :
  other ≠ ref → rule_objs (deactivate ref h) !! other = rule_objs h !! other.
Proof. intros Hne. simpl. apply list_lookup_alter_ne; congruence. Qed.

Lemma deactivate_lookup h ref rule :
  rule_objs h !! ref = Some rule →
  rule_objs (deactivate ref h) !! ref = Some (set_active false rule).
Proof. intros Hl. simpl. by rewrite list_lookup_alter_eq, Hl. Qed.

Lemma validate_fuel_total fuel : ∀ module_name func_name func args system h,
  heap_ok h = true → system_ok system h = true →
  count_active (rule_objs h) < fuel →
  is_Some (validate_fuel fuel module_name func_name func args system h).
Proof.
  induction fuel as [|fuel IH]; intros module_name func_name func args system h Hh Hs Hc;
    [lia|].
  simpl. destruct (get_module system module_name) as [target|] eqn:Hg; [|eauto].
  destruct (func args) as [result|e]; [|eauto].
  pose proof (system_ok_spec _ _ _ _ Hs Hg) as Ht.
  pose proof (heap_ok_spec _ Hh) as [_ Himp].
  destruct (collect_all_total _ _ Himp Ht) as [all_rules Hcol]. rewrite Hcol.
  destruct (verify_total h args all_rules (collected_valid _ _ _ Hh Hcol))
    as [[|rule|ref rule] Hv]; rewrite Hv; [eauto..|].
  apply verify_soft in Hv as (Hl & Ha & _).
  destruct (IH module_name func_name func args system (deactivate ref h))
    as [[[verdict h'] out'] E].
  - by rewrite heap_ok_deactivate.
  - done.
  - simpl. pose proof (count_active_alter _ _ _ Hl Ha). lia.
  - rewrite E. eauto.
Qed.

Lemma validate_fuel_mono fuel : ∀ fuel' module_name func_name func args system h r,
  fuel ≤ fuel' →
  validate_fuel fuel module_name func_name func args system h = Some r →
  validate_fuel fuel' module_name func_name func args system h = Some r.
Proof.
  induction fuel as [|fuel IH];
    intros fuel' module_name func_name func args system h r Hle H; [done|].
  destruct fuel' as [|fuel']; [lia|]. simpl in *.
  destruct (get_module system module_name) as [target|]; [|done].
  destruct (func args) as [result|e]; [|done].
  destruct (collect_all _ _) as [all_rules|]; [|done].
  destruct (verify h args all_rules) as [[|rule|ref rule]|]; try done.
  destruct (validate_fuel fuel _ _ _ _ _ _) as [[[verdict h'] out']|] eqn:E; [|done].
  rewrite (IH fuel' _ _ _ _ _ _ _ ltac:(lia) E). exact H.
Qed.

(** [validate] is the function run with any sufficient fuel. *)
Lemma validate_fuel_enough fuel module_name func_name func args system h :
  heap_ok h = true → system_ok system h = true →
  count_active (rule_objs h) < fuel →
  validate_fuel fuel module_name func_name func args system h
  = validate module_name func_name func args system h.
Proof.
  intros Hh Hs Hc.
  destruct (validate_fuel_total fuel module_name func_name func args system h Hh Hs Hc)
    as [r E].
  destruct (validate_fuel_total (S (length (rule_objs h)))
              module_name func_name func args system h Hh Hs) as [r' E'].
  { pose proof (count_active_le (rule_objs h)). lia. }
  unfold validate. rewrite E, E'.
  destruct (Nat.le_ge_cases fuel (S (length (rule_objs h)))) as [L|L].
  - rewrite (validate_fuel_mono _ _ _ _ _ _ _ _ _ L E) in E'. done.
  - rewrite (validate_fuel_mono _ _ _ _ _ _ _ _ _ L E') in E. done.
Qed.

Lemma validate_total module_name func_name func args system h :
  heap_ok h = true → system_ok system h = true →
  is_Some (validate module_name func_name func args system h).
Proof.
  intros Hh Hs. apply validate_fuel_total; [done..|].
  pose proof (count_active_le (rule_objs h)). lia.
Qed.

(** The body of [validate], with the recursive call as the source has
    it. *)
Lemma validate_unfold module_name func_name func args system h :
  heap_ok h = true → system_ok system h = true →
  validate module_name func_name func args system h =
  match get_module system module_name with
  | None => Some (false, h, [EModuleNotFound module_name])
  | Some target_module =>
      let hdr := [EValidation module_name; EFunction func_name] in
      match func args with
      | inr e => Some (false, h, hdr ++ [EExecutionError e])
      | inl result =>
          match collect_all (module_objs h) target_module with
          | None => None
          | Some all_rules =>
              let out := hdr ++ [EResult result; EAudit (length all_rules)] in
              match verify h args all_rules with
              | None => None
              | Some LoopDone => Some (true, h, out ++ [EAccept])
              | Some (LoopHard rule) =>
                  Some (false, h,
                        out ++ [EConflict (name rule) (source_module rule); EStop])
              | Some (LoopSoft ref rule) =>
                  match validate module_name func_name func args
                                 system (deactivate ref h) with
                  | None => None
                  | Some (verdict, h', out') =>
                      Some (verdict, h',
                            out ++ [EConflict (name rule) (source_module rule); EAIFix]
                                ++ out')
                  end
              end
          end
      end
  end.
Proof.
  intros Hh Hs. unfold validate at 1. simpl.
  destruct (get_module system module_name) as [target|]; [|done].
  destruct (func args) as [result|e]; [|done].
  destruct (collect_all _ _) as [all_rules|]; [|done].
  destruct (verify h args all_rules) as [[|rule|ref rule]|] eqn:Hv; try done.
  apply verify_soft in Hv as (Hl & Ha & _).
  rewrite validate_fuel_enough; [done| | |].
  - by rewrite heap_ok_deactivate.
  - done.
  - simpl. pose proof (count_active_alter _ _ _ Hl Ha).
    pose proof (count_active_le (rule_objs h)). lia.
Qed.

(** C1.  When the loop of a [validate] call comes to an active soft
    rule (every rule before it in collector order is passed over) and
    its predicate returns false without raising, the rule object is
    deactivated and [validate] is called again with the same module name,
    function, arguments and system: what this call prints and returns is
    its own first pass followed by all of the second call, which executes
    the function again and collects the same rule references, the
    offending one now inactive. *)
Theorem soft_conflict_deactivates_and_restarts
    module_name func_name func args system h
    target result all_rules before ref rule after :
  heap_ok h = true → system_ok system h = true →
  get_module system module_name = Some target →
  func args = inl result →
  collect_all (module_objs h) target = Some all_rules →
  all_rules = before ++ ref :: after →
  verify h args before = Some LoopDone →
  rule_objs h !! ref = Some rule →
  active rule = true → kind rule = SOFT → logic rule args = Some false →
  let h1 := deactivate ref h in
  let pass := [EValidation module_name; EFunction func_name;
               EResult result; EAudit (length all_rules)] in
  rule_objs h1 !! ref = Some (set_active false rule)
  ∧ (∀ other, other ≠ ref → rule_objs h1 !! other = rule_objs h !! other)
  ∧ module_objs h1 = module_objs h
  ∧ collect_all (module_objs h1) target = Some all_rules
  ∧ is_active h1 ref = false
  ∧ ∃ verdict h' rest,
      validate module_name func_name func args system h1
      = Some (verdict, h', pass ++ rest)
      ∧ validate module_name func_name func args system h
        = Some (verdict, h',
                pass ++ [EConflict (name rule) (source_module rule); EAIFix]
                     ++ pass ++ rest).
Proof.
  intros Hh Hs Hg Hf Hc -> Hb Hl Ha Hk Hlog h1 pass.
  assert (Hv : verify h args (before ++ ref :: after) = Some (LoopSoft ref rule)).
  { rewrite (verify_app _ _ _ _ Hb). simpl. by rewrite Hl, Ha, Hlog, Hk. }
  split; [by apply deactivate_lookup|].
  split; [intros; by apply deactivate_lookup_ne|].
  split; [done|]. split; [done|].
  split; [unfold is_active, h1; by rewrite (deactivate_lookup _ _ _ Hl)|].
  assert (Hh1 : heap_ok h1 = true) by (unfold h1; by rewrite heap_ok_deactivate).
  destruct (validate_total module_name func_name func args system h1 Hh1 Hs)
    as [[[verdict h'] out1] E1].
  assert (∃ rest, out1 = pass ++ rest) as [rest ->].
  { rewrite validate_unfold in E1 by done. rewrite Hg, Hf in E1. simpl in E1.
    change (module_objs h1) with (module_objs h) in E1. rewrite Hc in E1.
    destruct (verify h1 args _) as [[|rule'|ref' rule']|]; try done.
    - injection E1 as <- <- <-. eauto.
    - injection E1 as <- <- <-. eauto.
    - destruct (validate _ _ _ _ _ _) as [[[v2 h2] out2]|]; [|done].
      injection E1 as <- <- <-. eauto. }
  exists verdict, h', rest. split; [done|].
  rewrite validate_unfold by done. rewrite Hg, Hf. simpl. rewrite Hc, Hv.
  fold h1. by rewrite E1.
Qed.

Lemma hard_conflict_survives h ref rule ref' rule' :
  rule_objs h !! ref = Some rule → kind rule = HARD →
  rule_objs h !! ref' = Some rule' → kind rule' = SOFT →
  rule_objs (deactivate ref' h) !! ref = Some rule.
Proof.
  intros Hl Hk Hl' Hk'. rewrite deactivate_lookup_ne; [done|].
  intros ->. congruence.
Qed.

Lemma hard_rule_rejects fuel : ∀ module_name func_name func args system h
    target result all_rules ref rule verdict h' out,
  get_module system module_name = Some target →
  func args = inl result →
  collect_all (module_objs h) target = Some all_rules →
  ref ∈ all_rules → rule_objs h !! ref = Some rule →
  active rule = true → kind rule = HARD → logic rule args = Some false →
  validate_fuel fuel module_name func_name func args system h
  = Some (verdict, h', out) →
  verdict = false
  ∧ ∃ before culprit_ref culprit,
      out = before ++ [EConflict (name culprit) (source_module culprit); EStop]
      ∧ culprit_ref ∈ all_rules
      ∧ rule_objs h !! culprit_ref = Some culprit
      ∧ active culprit = true ∧ kind culprit = HARD
      ∧ logic culprit args = Some false.
Proof.
  induction fuel as [|fuel IH];
    intros module_name func_name func args system h target result all_rules
           ref rule verdict h' out Hg Hf Hc Hin Hl Ha Hk Hlog H; [done|].
  simpl in H. rewrite Hg, Hf, Hc in H.
  destruct (verify h args all_rules) as [[|rule1|ref1 rule1]|] eqn:Hv; [| | |done].
  - exfalso. eapply verify_done; eauto.
  - injection H as <- <- <-. split; [done|].
    apply verify_hard in Hv as (r1 & b & a & -> & _ & Hl1 & Ha1 & Hk1 & Hlog1).
    exists [EValidation module_name; EFunction func_name; EResult result;
            EAudit (length (b ++ r1 :: a))], r1, rule1.
    split; [done|]. split; [set_solver|]. done.
  - destruct (validate_fuel fuel _ _ _ _ _ _) as [[[v2 h2] out2]|] eqn:E; [|done].
    injection H as <- <- <-.
    apply verify_soft in Hv as (Hl1 & Ha1 & Hk1 & _).
    pose proof (hard_conflict_survives _ _ _ _ _ Hl Hk Hl1 Hk1) as Hl2.
    destruct (IH _ _ _ _ _ (deactivate ref1 h) target result all_rules ref rule
                 _ _ _ Hg Hf Hc Hin Hl2 Ha Hk Hlog E)
      as (-> & b & cref & c & -> & Hcin & Hcl & Hca & Hck & Hclog).
    split; [done|].
    exists ([EValidation module_name; EFunction func_name; EResult result;
             EAudit (length all_rules);
             EConflict (name rule1) (source_module rule1); EAIFix] ++ b), cref, c.
    split; [done|]. split; [done|]. split; [|done].
    destruct (decide (cref = ref1)) as [->|Hne].
    + rewrite (deactivate_lookup _ _ _ Hl1) in Hcl. injection Hcl as <-. done.
    + by rewrite deactivate_lookup_ne in Hcl.
Qed.

(** C2.  If the function does not raise and some active hard rule among
    those collected from the target module has a predicate that returns
    false without raising, the verdict is a rejection that ends with the
    conflict and stop lines of an active, violated hard rule of that
    module, however many soft rules are relaxed on the way. *)
Theorem hard_rule_primacy module_name func_name func args system h
    target result all_rules ref rule :
  heap_ok h = true → system_ok system h = true →
  get_module system module_name = Some target →
  func args = inl result →
  collect_all (module_objs h) target = Some all_rules →
  ref ∈ all_rules → rule_objs h !! ref = Some rule →
  active rule = true → kind rule = HARD → logic rule args = Some false →
  ∃ h' before culprit_ref culprit,
    validate module_name func_name func args system h
    = Some (false, h',
            before ++ [EConflict (name culprit) (source_module culprit); EStop])
    ∧ culprit_ref ∈ all_rules
    ∧ rule_objs h !! culprit_ref = Some culprit
    ∧ active culprit = true ∧ kind culprit = HARD
    ∧ logic culprit args = Some false.
Proof.
  intros Hh Hs Hg Hf Hc Hin Hl Ha Hk Hlog.
  destruct (validate_total module_name func_name func args system h Hh Hs)
    as [[[verdict h'] out] E].
  destruct (hard_rule_rejects _ _ _ _ _ _ _ _ _ _ _ _ _ _ _
              Hg Hf Hc Hin Hl Ha Hk Hlog E)
    as (-> & b & cref & c & -> & ?).
  exists h', b, cref, c. by rewrite E.
Qed.

Lemma is_active_soft_deactivate h ref other :
  is_active_soft (deactivate ref h) other = true →
  other ≠ ref ∧ is_active_soft h other = true.
Proof.
  unfold is_active_soft. destruct (decide (other = ref)) as [->|Hne].
  - simpl. rewrite list_lookup_alter_eq.
    destruct (rule_objs h !! ref); simpl; done.
  - rewrite deactivate_lookup_ne by done. done.
Qed.

Lemma soft_set_shrinks h all_rules ref rule :
  ref ∈ all_rules → rule_objs h !! ref = Some rule →
  active rule = true → kind rule = SOFT →
  size (list_to_set (List.filter (is_active_soft (deactivate ref h)) all_rules) : gset nat)
  < size (list_to_set (List.filter (is_active_soft h) all_rules) : gset nat).
Proof.
  intros Hin Hl Ha Hk. apply subset_size. split.
  - intros x Hx. apply elem_of_list_to_set, list_elem_of_In, filter_In in Hx as [Hx Hs].
    apply is_active_soft_deactivate in Hs as [_ Hs].
    apply elem_of_list_to_set, list_elem_of_In, filter_In. done.
  - intros Hsub.
    assert (Href : ref ∈ (list_to_set (List.filter (is_active_soft h) all_rules) : gset nat)).
    { apply elem_of_list_to_set, list_elem_of_In, filter_In.
      split; [by apply list_elem_of_In|].
      unfold is_active_soft. rewrite Hl, Ha, Hk. done. }
    apply Hsub, elem_of_list_to_set, list_elem_of_In, filter_In in Href as [_ Hs].
    apply is_active_soft_deactivate in Hs as [Hne _]. done.
Qed.

Lemma validate_fuel_bounded fuel : ∀ module_name func_name func args system h
    verdict h' out,
  validate_fuel fuel module_name func_name func args system h
  = Some (verdict, h', out) →
  restarts out ≤ soft_reachable system module_name h
  ∧ passes out ≤ S (restarts out)
  ∧ executions out = passes out.
Proof.
  induction fuel as [|fuel IH];
    intros module_name func_name func args system h verdict h' out H; [done|].
  simpl in H. unfold soft_reachable.
  destruct (get_module system module_name) as [target|] eqn:Hg.
  2:{ injection H as <- <- <-. cbv. lia. }
  destruct (func args) as [result|e].
  2:{ injection H as <- <- <-. cbv. lia. }
  destruct (collect_all _ _) as [all_rules|] eqn:Hc; [|done].
  destruct (verify h args all_rules) as [[|rule|ref rule]|] eqn:Hv; [| | |done].
  - injection H as <- <- <-. cbv. lia.
  - injection H as <- <- <-. cbv. lia.
  - destruct (validate_fuel fuel _ _ _ _ _ _) as [[[v2 h2] out2]|] eqn:E; [|done].
    injection H as <- <- <-.
    apply IH in E as (R & P & X). unfold soft_reachable in R.
    rewrite Hg in R. change (module_objs (deactivate ref h)) with (module_objs h) in R.
    rewrite Hc in R.
    apply verify_soft in Hv as (Hl & Ha & Hk & _ & b & a & -> & _).
    assert (Hin : ref ∈ b ++ ref :: a) by set_solver.
    pose proof (soft_set_shrinks _ _ _ _ Hin Hl Ha Hk) as Hlt.
    unfold restarts, passes, executions, count_events in *. simpl. lia.
Qed.

(** C3.  On a store without dangling references, [validate] returns; it
    restarts at most [k] times and runs at most [k + 1] passes, [k] being
    the number of active soft rules the collector reaches from the target
    module when the call starts. *)
Theorem validate_terminates_within_bound module_name func_name func args system h :
  heap_ok h = true → system_ok system h = true →
  ∃ verdict h' out,
    validate module_name func_name func args system h = Some (verdict, h', out)
    ∧ restarts out ≤ soft_reachable system module_name h
    ∧ passes out ≤ S (soft_reachable system module_name h)
    ∧ executions out = passes out.
Proof.
  intros Hh Hs.
  destruct (validate_total module_name func_name func args system h Hh Hs)
    as [[[verdict h'] out] E].
  exists verdict, h', out. split; [done|].
  apply validate_fuel_bounded in E as (R & P & X). lia.
Qed.

Lemma kept_or_deactivated_alter (l : list (Rule Value)) ref rule :
  l !! ref = Some rule → active rule = true →
  Forall2 rule_kept_or_deactivated l (alter (set_active false) ref l).
Proof.
  revert ref. induction l as [|r l IH]; intros [|ref] Hl Ha; simpl in *; try done.
  - injection Hl as ->. constructor.
    + by right.
    + apply Forall2_same_length_lookup. split; [done|].
      intros i x y Hx Hy. left. congruence.
  - constructor; [by left|]. by apply IH.
Qed.

Lemma only_deactivated_refl h : only_deactivated h h.
Proof.
  split; [done|]. apply Forall2_same_length_lookup. split; [done|].
  intros i x y Hx Hy. left. congruence.
Qed.

Lemma only_deactivated_trans h1 h2 h3 :
  only_deactivated h1 h2 → only_deactivated h2 h3 → only_deactivated h1 h3.
Proof.
  intros [M12 R12] [M23 R23]. split; [congruence|].
  eapply Forall2_trans; [|exact R12|exact R23].
  intros x y z [->|[Hx ->]] [->|[Hy ->]].
  - by left.
  - by right.
  - by right.
  - done.
Qed.

Lemma only_deactivated_deactivate h ref rule :
  rule_objs h !! ref = Some rule → active rule = true →
  only_deactivated h (deactivate ref h).
Proof. intros Hl Ha. split; [done|]. by eapply kept_or_deactivated_alter. Qed.

Lemma validate_fuel_only_deactivates fuel : ∀ module_name func_name func args system h
    verdict h' out,
  validate_fuel fuel module_name func_name func args system h
  = Some (verdict, h', out) →
  only_deactivated h h'.
Proof.
  induction fuel as [|fuel IH];
    intros module_name func_name func args system h verdict h' out H; [done|].
  simpl in H.
  destruct (get_module system module_name) as [target|].
  2:{ injection H as <- <- <-. apply only_deactivated_refl. }
  destruct (func args) as [result|e].
  2:{ injection H as <- <- <-. apply only_deactivated_refl. }
  destruct (collect_all _ _) as [all_rules|]; [|done].
  destruct (verify h args all_rules) as [[|rule|ref rule]|] eqn:Hv; [| | |done].
  - injection H as <- <- <-. apply only_deactivated_refl.
  - injection H as <- <- <-. apply only_deactivated_refl.
  - destruct (validate_fuel fuel _ _ _ _ _ _) as [[[v2 h2] out2]|] eqn:E; [|done].
    injection H as <- <- <-.
    apply verify_soft in Hv as (Hl & Ha & _).
    eapply only_deactivated_trans; [by eapply only_deactivated_deactivate|].
    by eapply IH.
Qed.

Lemma only_deactivated_lookup h h' ref rule' :
  only_deactivated h h' → rule_objs h' !! ref = Some rule' →
  ∃ rule, rule_objs h !! ref = Some rule
          ∧ name rule' = name rule ∧ kind rule' = kind rule
          ∧ logic rule' = logic rule ∧ source_module rule' = source_module rule
          ∧ (active rule' = true → active rule = true)
          ∧ (active rule' = true → rule' = rule).
Proof.
  intros [_ R] Hl'.
  destruct (Forall2_lookup_r _ _ _ _ _ R Hl') as (rule & Hl & [->|[Ha ->]]).
  - exists rule. done.
  - exists rule. done.
Qed.

Lemma only_deactivated_active h h' ref :
  only_deactivated h h' → is_active h' ref = true → is_active h ref = true.
Proof.
  intros Hod. unfold is_active.
  destruct (rule_objs h' !! ref) as [rule'|] eqn:Hl'; [|done].
  destruct (only_deactivated_lookup _ _ _ _ Hod Hl') as (rule & -> & _ & _ & _ & _ & Ha & _).
  done.
Qed.

Lemma validate_each_only_deactivates (calls : list (@Call Value Res Exn)) :
  ∀ h verdicts h',
    validate_each calls h = Some (verdicts, h') → only_deactivated h h'.
Proof.
  induction calls as [|c calls IH]; intros h verdicts h' H; simpl in H.
  - injection H as <- <-. apply only_deactivated_refl.
  - destruct (validate _ _ _ _ _ _) as [[[v1 h1] out1]|] eqn:E; [|done].
    destruct (validate_each calls h1) as [[vs h2]|] eqn:E2; [|done].
    injection H as <- <-.
    eapply only_deactivated_trans; [|by eapply IH].
    by eapply validate_fuel_only_deactivates.
Qed.

(** C5.  After any sequence of [validate] calls the module objects are
    as before and every rule object is as before or was active and now
    differs by its [active] attribute only, which is false; so a rule that
    is active afterwards was active before, and the active rules collected
    from any module afterwards were among them before. *)
Theorem engine_only_deactivates (calls : list (@Call Value Res Exn))
    h verdicts h' :
  validate_each calls h = Some (verdicts, h') →
  only_deactivated h h'
  ∧ (∀ ref rule', rule_objs h' !! ref = Some rule' →
       ∃ rule, rule_objs h !! ref = Some rule
               ∧ name rule' = name rule ∧ kind rule' = kind rule
               ∧ logic rule' = logic rule
               ∧ source_module rule' = source_module rule
               ∧ (active rule' = true → active rule = true))
  ∧ (∀ ref, is_active h ref = false → is_active h' ref = false)
  ∧ (∀ target, active_reachable h' target ⊆ active_reachable h target).
Proof.
  intros H. apply validate_each_only_deactivates in H as Hod.
  split; [done|]. split; [|split].
  - intros ref rule' Hl'.
    destruct (only_deactivated_lookup _ _ _ _ Hod Hl')
      as (rule & ? & ? & ? & ? & ? & ? & _).
    exists rule. done.
  - intros ref Hoff. destruct (is_active h' ref) eqn:Hon; [|done].
    apply (only_deactivated_active _ _ _ Hod) in Hon. congruence.
  - intros target x. unfold active_reachable.
    pose proof Hod as [-> _].
    destruct (collect_all (module_objs h) target) as [all_rules|]; [|done].
    rewrite !list_elem_of_In, !filter_In. intros [Hx Ha]. split; [done|].
    by apply (only_deactivated_active h h').
Qed.

Lemma verify_skip_raising h args before ref rule after :
  rule_objs h !! ref = Some rule → logic rule args = None →
  verify h args (before ++ ref :: after) = verify h args (before ++ after).
Proof.
  intros Hl Hn. induction before as [|r0 before IH]; simpl.
  - rewrite Hl, Hn. by destruct (active rule).
  - by rewrite IH.
Qed.

(** A rule whose predicate raises and a deactivated rule are passed over
    alike. *)
Lemma verify_deactivate_raising h args ref rule all_rules :
  rule_objs h !! ref = Some rule → logic rule args = None →
  verify (deactivate ref h) args all_rules = verify h args all_rules.
Proof.
  intros Hl Hn. induction all_rules as [|r0 rest IH]; simpl; [done|].
  destruct (decide (r0 = ref)) as [->|Hne].
  - rewrite list_lookup_alter_eq, Hl. simpl. rewrite Hn.
    destruct (active rule); simpl; apply IH.
  - rewrite list_lookup_alter_ne by done.
    destruct (rule_objs h !! r0) as [rule0|]; [|done].
    by rewrite IH.
Qed.

Lemma deactivate_comm h ref ref' :
  deactivate ref (deactivate ref' h) = deactivate ref' (deactivate ref h).
Proof.
  unfold deactivate. simpl. f_equal.
  destruct (decide (ref = ref')) as [->|Hne]; [done|].
  by apply list_alter_alter_ne.
Qed.

Lemma validate_fuel_raising fuel : ∀ module_name func_name func args system h
    ref rule,
  rule_objs h !! ref = Some rule → logic rule args = None →
  validate_fuel fuel module_name func_name func args system (deactivate ref h)
  = (λ r, (r.1.1, deactivate ref r.1.2, r.2))
      <$> validate_fuel fuel module_name func_name func args system h
  ∧ ∀ r, validate_fuel fuel module_name func_name func args system h = Some r →
         rule_objs r.1.2 !! ref = Some rule.
Proof.
  induction fuel as [|fuel IH];
    intros module_name func_name func args system h ref rule Hl Hn; [done|].
  simpl.
  destruct (get_module system module_name) as [target|].
  2:{ split; [done|]. by intros r [= <-]. }
  destruct (func args) as [result|e].
  2:{ split; [done|]. by intros r [= <-]. }
  destruct (collect_all _ _) as [all_rules|]; [|done].
  rewrite (verify_deactivate_raising _ _ _ _ _ Hl Hn).
  destruct (verify h args all_rules) as [[|rule1|ref1 rule1]|] eqn:Hv.
  - split; [done|]. by intros r [= <-].
  - split; [done|]. by intros r [= <-].
  - apply verify_soft in Hv as (Hl1 & _ & _ & Hf1 & _).
    assert (Hne : ref ≠ ref1) by (intros ->; congruence).
    assert (Hl' : rule_objs (deactivate ref1 h) !! ref = Some rule)
      by (by rewrite deactivate_lookup_ne).
    destruct (IH module_name func_name func args system _ _ _ Hl' Hn) as [E K].
    rewrite <- deactivate_comm in E. rewrite E.
    destruct (validate_fuel fuel _ _ _ _ _ (deactivate ref1 h))
      as [[[v2 h2] out2]|]; simpl.
    + split; [done|]. intros r [= <-]. simpl. by apply (K (v2, h2, out2)).
    + done.
  - done.
Qed.

(** C8.  A rule whose predicate raises on the arguments is passed over:
    the loop leaves as it would without the rule in the list; a
    [validate] call leaves the rule object untouched, and it prints and
    decides what it would had the rule been inactive from the start. *)
Theorem raising_predicate_is_skipped args h ref rule :
  rule_objs h !! ref = Some rule → logic rule args = None →
  (∀ before after,
     verify h args (before ++ ref :: after) = verify h args (before ++ after))
  ∧ (∀ module_name func_name func system verdict h' out,
       validate module_name func_name func args system h = Some (verdict, h', out) →
       rule_objs h' !! ref = Some rule
       ∧ validate module_name func_name func args system (deactivate ref h)
         = Some (verdict, deactivate ref h', out)).
Proof.
  intros Hl Hn. split.
  - intros before after. by eapply verify_skip_raising.
  - intros module_name func_name func system verdict h' out H.
    unfold validate in *.
    destruct (validate_fuel_raising (S (length (rule_objs h)))
                module_name func_name func args system h ref rule Hl Hn) as [E K].
    split; [by apply (K _ H)|].
    simpl length. rewrite length_alter. rewrite E, H. done.
Qed.

Lemma validate_prints_audit module_name func_name func args system h
    target result all_rules :
  heap_ok h = true → system_ok system h = true →
  get_module system module_name = Some target →
  func args = inl result →
  collect_all (module_objs h) target = Some all_rules →
  ∃ verdict h' rest,
    validate module_name func_name func args system h
    = Some (verdict, h',
            [EValidation module_name; EFunction func_name;
             EResult result; EAudit (length all_rules)] ++ rest).
Proof.
  intros Hh Hs Hg Hf Hc.
  destruct (validate_total module_name func_name func args system h Hh Hs)
    as [[[verdict h'] out] E].
  exists verdict, h'. rewrite E.
  rewrite validate_unfold in E by done. rewrite Hg, Hf in E. simpl in E.
  rewrite Hc in E.
  destruct (verify h args all_rules) as [[|rule'|ref' rule']|]; try done.
  - injection E as <- <- <-. eauto.
  - injection E as <- <- <-. eauto.
  - destruct (validate _ _ _ _ _ _) as [[[v2 h2] out2]|]; [|done].
    injection E as <- <- <-. eauto.
Qed.

(** C10.  The collector does not look at [active]: the references held
    by the target module, and by every module it reaches, are all in its
    result, and the result is the same after any rule is deactivated.
    [validate] prints the audit line with the length of that list, before
    and after a deactivation.  The attribute is tested in the loop: when
    the loop comes to a rule whose predicate returns false, it leaves with
    a conflict if the rule is active and goes on with the next rule if it
    is not. *)
Theorem collector_keeps_inactive_rules module_name func_name func args system h
    target result all_rules :
  heap_ok h = true → system_ok system h = true →
  get_module system module_name = Some target →
  func args = inl result →
  collect_all (module_objs h) target = Some all_rules →
  let pass := [EValidation module_name; EFunction func_name;
               EResult result; EAudit (length all_rules)] in
  (∀ m ref, module_objs h !! target = Some m → ref ∈ rules m → ref ∈ all_rules)
  ∧ (names_unique (module_objs h) = true →
     ∀ j mj ref, reachable (module_objs h) target j →
                 module_objs h !! j = Some mj → ref ∈ rules mj → ref ∈ all_rules)
  ∧ (∃ verdict h' rest,
       validate module_name func_name func args system h
       = Some (verdict, h', pass ++ rest))
  ∧ (∀ ref, is_active (deactivate ref h) ref = false
            ∧ collect_all (module_objs (deactivate ref h)) target = Some all_rules
            ∧ ∃ verdict h' rest,
                validate module_name func_name func args system (deactivate ref h)
                = Some (verdict, h', pass ++ rest))
  ∧ (∀ before ref rule after,
       all_rules = before ++ ref :: after →
       verify h args before = Some LoopDone →
       rule_objs h !! ref = Some rule → logic rule args = Some false →
       verify h args all_rules
       = if active rule
         then Some (match kind rule with
                    | HARD => LoopHard rule
                    | SOFT => LoopSoft ref rule
                    end)
         else verify h args after).
Proof.
  intros Hh Hs Hg Hf Hc pass. split; [|split; [|split; [|split]]].
  - intros m ref Hm Hin. unfold collect_all in Hc.
    destruct (_collect_rules _ _ _ _) as [st|] eqn:E; [|done].
    injection Hc as <-.
    destruct (collect_sound _ _ _ _ _ E) as (o & D & ->). simpl in *.
    inversion D as [|? ? m' ? ? ? Hm' Hi|? ? m' ? b V1 o' ? Hm' Hi Hb Hn]; subst.
    + set_solver.
    + simpl. unfold rules_of at 1. rewrite Hm. set_solver.
  - intros Hun j mj ref Hreach Hj Hin.
    by apply (reachable_rules_collected _ _ _ _ _ Hun Hreach Hj Hc).
  - by eapply validate_prints_audit.
  - intros ref. split; [|split; [done|]].
    + unfold is_active. simpl.
      rewrite list_lookup_alter_eq. by destruct (rule_objs h !! ref).
    + eapply validate_prints_audit; [|done..]. by rewrite heap_ok_deactivate.
  - intros before ref rule after -> Hb Hl Hlog.
    rewrite (verify_app _ _ _ _ Hb). simpl. rewrite Hl.
    destruct (active rule); simpl; [|done]. rewrite Hlog. by destruct (kind rule).
Qed.

End Validator.
End ValidatorFacts.

(** * The registry and the parser *)
Module RegistryFacts.
Import ImportSystem.

Section Registry.
Context {Value : Type}.
Implicit Types (h : Heap Value) (system : PhiSystem).

(** C6, as the registry of [phi_import_system.py] has it: creating a
    module under a registered name returns the registered object and
    leaves the store and the dictionary as they are; only the current
    module changes. *)
Theorem create_module_existing name system h m :
  get_module system name = Some m →
  create_module name system h
  = (m, {| modules := modules system; current_module := Some m |}, h, []).
Proof. unfold get_module, create_module. by intros ->. Qed.

End Registry.

(** C6 fails on the registry of [phi_modular_system.py]: creating
    [Arithmetic] again returns a new object without rules and installs it
    under the name; the registered object, with its rule, is no longer
    reachable through the registry. *)
Lemma modular_create_module_replaces :
  ModularSystem.get_module Demo.modular_system "Arithmetic" = Some 0
  ∧ ModularSystem.rules <$> ModularSystem.module_objs Demo.modular_heap !! 0 = Some [0]
  ∧ (∃ system' h' out,
      ModularSystem.create_module "Arithmetic" Demo.modular_system Demo.modular_heap
      = (1, system', h', out)
      ∧ ModularSystem.get_module system' "Arithmetic" = Some 1
      ∧ ModularSystem.rules <$> ModularSystem.module_objs h' !! 1 = Some [])
  ∧ ¬ (∀ name system (h : ModularSystem.Heap PyVal) m,
         ModularSystem.get_module system name = Some m →
         (ModularSystem.create_module name system h).1.1.1 = m).
Proof.
  split; [reflexivity|]. split; [reflexivity|]. split.
  - eexists _, _, _. split; [reflexivity|]. split; reflexivity.
  - intros H.
    specialize (H "Arithmetic" Demo.modular_system Demo.modular_heap 0 eq_refl).
    discriminate H.
Qed.

Lemma startswith_import s :
  PyStr.startswith s "import" = true →
  s ≠ EmptyString ∧ PyStr.startswith s "//" = false
  ∧ PyStr.startswith s "module" = false.
Proof.
  unfold PyStr.startswith.
  destruct s as [|c s]; [done|]. simpl.
  destruct (decide ("i"%char = c)) as [<-|]; [|done].
  intros _. done.
Qed.

(** C7, as the code has it: an import is resolved through the registry
    when its line is parsed.  If the name is registered, the module
    object found is appended to the imports of the current module; if it
    is not, the line only prints an error and nothing is stored.  At
    validation time the collector follows the stored references: the
    rules a directly imported module object then holds are collected. *)
Theorem import_resolved_when_parsed line imp_name system (h : Heap PyVal) out cur m :
  PyStr.startswith (PyStr.strip line) "import" = true →
  PyStr.search_kw "import" (PyStr.strip line) = Some imp_name →
  current_module system = Some cur →
  module_objs h !! cur = Some m →
  parse_line line (system, h, out)
  = match get_module system imp_name with
    | Some imp_mod =>
        Some (system, add_import cur imp_mod h, out ++ [MImport imp_name (mod_name m)])
    | None => Some (system, h, out ++ [MImportError imp_name])
    end
  ∧ (∀ imp_mod, module_objs (add_import cur imp_mod h) !! cur
                = Some (mkModule (mod_name m) (rules m) (imports m ++ [imp_mod])))
  ∧ (∀ (h2 : Heap PyVal) root mr imp mi all_rules,
       names_unique (module_objs h2) = true →
       module_objs h2 !! root = Some mr → imp ∈ imports mr →
       module_objs h2 !! imp = Some mi →
       collect_all (module_objs h2) root = Some all_rules →
       rules mi ⊆ all_rules).
Proof.
  intros Hstart Hsearch Hcur Hm. split; [|split].
  - unfold parse_line.
    destruct (startswith_import _ Hstart) as (Hne & Hc & Hmod).
    destruct (decide (PyStr.strip line = "")) as [E|_]; [done|].
    rewrite Hc, Hmod, Hstart, Hsearch, Hcur.
    destruct (get_module system imp_name); [|done].
    by rewrite Hm.
  - intros imp_mod. simpl. by rewrite list_lookup_alter_eq, Hm.
  - intros h2 root mr imp mi all_rules Hun Hr Hin Hi Hc.
    eapply ImportFacts.reachable_rules_collected; eauto.
    apply rtc_once. by exists mr.
Qed.

(** C7 fails: [Finance] imports [CoreMath] before [CoreMath] is
    declared.  After parsing, [CoreMath] is registered and holds its rule,
    yet [Finance] has no import and the collector returns the rule of
    [Finance] alone. *)
Lemma forward_import_is_dropped :
  ∃ system h out,
    parse Demo.forward_import empty_system empty_heap = Some (system, h, out)
    ∧ get_module system "Finance" = Some 0
    ∧ get_module system "CoreMath" = Some 1
    ∧ module_objs h !! 0 = Some (mkModule "Finance" [0] [])
    ∧ module_objs h !! 1 = Some (mkModule "CoreMath" [1] [])
    ∧ collect_all (module_objs h) 0 = Some [0]
    ∧ out = [MAnalysis; MCreating "Finance"; MImportError "CoreMath";
             MRuleAdded "positive"; MCreating "CoreMath"; MRuleAdded "nonzero"].
Proof.
  eexists _, _, _. split; [vm_compute; reflexivity|].
  repeat split; vm_compute; reflexivity.
Qed.

End RegistryFacts.

(** * phi_kernel_poc.py *)
Module KernelPocFacts.
Import KernelPoc.

(** C9.  [check] on a deactivated rule answers [True] without calling
    the predicate. *)
Theorem inactive_rule_check_passes {Value : Type} (self : Rule Value)
    (args : list Value) :
  active self = false → check self args = Some true.
Proof. unfold check. by intros ->. Qed.

Lemma inactive_rule_check_passes_witness :
  check (mkRule "commutativity" (λ _ : list Z, Some false) SOFT false) [2%Z; 3%Z]
  = Some true.
Proof. apply inactive_rule_check_passes. reflexivity. Defined.

End KernelPocFacts.

(** * The statements at the sample stores *)
Module Witnesses.
Import ImportSystem Demo.

(** The store the parser builds from the program text of the script, and
    what the collector returns for [Finance]: its own rule, then the rule
    of the imported [CoreMath]. *)
Example script_store :
  ∃ system h,
    parse source_code empty_system empty_heap
    = Some (system, h,
            [MAnalysis; MCreating "CoreMath"; MRuleAdded "nonzero";
             MCreating "Finance"; MImport "CoreMath" "Finance";
             MRuleAdded "positive"])
    ∧ module_objs h = [mkModule "CoreMath" [0] []; mkModule "Finance" [1] [0]]
    ∧ (λ r, (name r, kind r, source_module r, active r)) <$> rule_objs h
      = [("nonzero", HARD, "CoreMath", true); ("positive", SOFT, "Finance", true)]
    ∧ get_module system "CoreMath" = Some 0
    ∧ get_module system "Finance" = Some 1
    ∧ current_module system = Some 1
    ∧ collect_all (module_objs h) 1 = Some [1; 0].
Proof.
  eexists _, _. split; [vm_compute; reflexivity|].
  repeat split; vm_compute; reflexivity.
Qed.

(** On the sample store: a product by zero in [Finance] is rejected by the
    hard rule of [CoreMath] after the soft rule [bounded] is relaxed. *)
Example reject_after_relaxation :
  validate "Finance" "calc_roi" multiply [PyInt 200; PyInt 0] demo_system demo_heap
  = Some (false, deactivate 2 demo_heap,
          [EValidation "Finance"; EFunction "calc_roi"; EResult 0%Z; EAudit 3;
           EConflict "bounded" "Finance"; EAIFix;
           EValidation "Finance"; EFunction "calc_roi"; EResult 0%Z; EAudit 3;
           EConflict "nonzero" "CoreMath"; EStop]).
Proof. vm_compute; reflexivity. Qed.

Lemma soft_conflict_deactivates_and_restarts_witness :
  let args := [PyInt 200; PyInt 5] in
  let h1 := deactivate 2 demo_heap in
  let pass := [EValidation "Finance"; EFunction "calc_roi";
               EResult 1000%Z; EAudit 3] in
  rule_objs h1 !! 2 = Some (set_active false (mkRule "bounded" SOFT bounded "Finance" true))
  ∧ (∀ other, other ≠ 2 → rule_objs h1 !! other = rule_objs demo_heap !! other)
  ∧ module_objs h1 = module_objs demo_heap
  ∧ collect_all (module_objs h1) 1 = Some [1; 2; 0]
  ∧ is_active h1 2 = false
  ∧ ∃ verdict h' rest,
      validate "Finance" "calc_roi" multiply args demo_system h1
      = Some (verdict, h', pass ++ rest)
      ∧ validate "Finance" "calc_roi" multiply args demo_system demo_heap
        = Some (verdict, h',
                pass ++ [EConflict "bounded" "Finance"; EAIFix] ++ pass ++ rest).
Proof.
  apply (ValidatorFacts.soft_conflict_deactivates_and_restarts
           "Finance" "calc_roi" multiply [PyInt 200; PyInt 5] demo_system demo_heap
           1 1000%Z [1; 2; 0] [1] 2
           (mkRule "bounded" SOFT bounded "Finance" true) [0]);
    vm_compute; reflexivity.
Defined.

Lemma hard_rule_primacy_witness :
  ∃ h' before culprit_ref culprit,
    validate "Finance" "calc_roi" multiply [PyInt 200; PyInt 0] demo_system demo_heap
    = Some (false, h',
            before ++ [EConflict (name culprit) (source_module culprit); EStop])
    ∧ culprit_ref ∈ [1; 2; 0]
    ∧ rule_objs demo_heap !! culprit_ref = Some culprit
    ∧ active culprit = true ∧ kind culprit = HARD
    ∧ logic culprit [PyInt 200; PyInt 0] = Some false.
Proof.
  apply (ValidatorFacts.hard_rule_primacy
           "Finance" "calc_roi" multiply [PyInt 200; PyInt 0] demo_system demo_heap
           1 0%Z [1; 2; 0] 0
           (mkRule "nonzero" HARD (_resolve_logic "nonzero") "CoreMath" true));
    try (vm_compute; reflexivity).
  repeat constructor.
Defined.

Lemma validate_terminates_within_bound_witness :
  ∃ verdict h' out,
    validate "Finance" "calc_roi" multiply [PyInt 200; PyInt 5] demo_system demo_heap
    = Some (verdict, h', out)
    ∧ restarts out ≤ soft_reachable demo_system "Finance" demo_heap
    ∧ passes out ≤ S (soft_reachable demo_system "Finance" demo_heap)
    ∧ executions out = passes out.
Proof.
  apply ValidatorFacts.validate_terminates_within_bound; vm_compute; reflexivity.
Defined.

Lemma collect_all_dfs_preorder_witness :
  ∃ below V',
    collect_all (module_objs demo_heap) 1
    = Some ([1; 2] ++ flat_map (rules_of (module_objs demo_heap)) below)
    ∧ dfs_preorder (module_objs demo_heap) {["Finance"]} [0] below V'
    ∧ NoDup (1 :: below)
    ∧ ∀ j, j ∈ 1 :: below ↔ reachable (module_objs demo_heap) 1 j.
Proof.
  apply (ImportFacts.collect_all_dfs_preorder demo_heap 1 (mkModule "Finance" [1; 2] [0]));
    vm_compute; reflexivity.
Defined.

Lemma collector_keeps_inactive_rules_witness :
  let h := deactivate 1 demo_heap in
  let args := [PyInt 2; PyInt 5] in
  let pass := [EValidation "Finance"; EFunction "calc_roi";
               EResult 10%Z; EAudit (length [1; 2; 0])] in
  (∀ m ref, module_objs h !! 1 = Some m → ref ∈ rules m → ref ∈ [1; 2; 0])
  ∧ (names_unique (module_objs h) = true →
     ∀ j mj ref, reachable (module_objs h) 1 j →
                 module_objs h !! j = Some mj → ref ∈ rules mj → ref ∈ [1; 2; 0])
  ∧ (∃ verdict h' rest,
       validate "Finance" "calc_roi" multiply args demo_system h
       = Some (verdict, h', pass ++ rest))
  ∧ (∀ ref, is_active (deactivate ref h) ref = false
            ∧ collect_all (module_objs (deactivate ref h)) 1 = Some [1; 2; 0]
            ∧ ∃ verdict h' rest,
                validate "Finance" "calc_roi" multiply args demo_system
                         (deactivate ref h)
                = Some (verdict, h', pass ++ rest))
  ∧ (∀ before ref rule after,
       [1; 2; 0] = before ++ ref :: after →
       verify h args before = Some LoopDone →
       rule_objs h !! ref = Some rule → logic rule args = Some false →
       verify h args [1; 2; 0]
       = if active rule
         then Some (match kind rule with
                    | HARD => LoopHard rule
                    | SOFT => LoopSoft ref rule
                    end)
         else verify h args after).
Proof.
  apply (ValidatorFacts.collector_keeps_inactive_rules
           "Finance" "calc_roi" multiply [PyInt 2; PyInt 5] demo_system
           (deactivate 1 demo_heap) 1 10%Z [1; 2; 0]);
    vm_compute; reflexivity.
Defined.

Lemma engine_only_deactivates_witness :
  only_deactivated demo_heap (deactivate 2 demo_heap)
  ∧ (∀ ref rule', rule_objs (deactivate 2 demo_heap) !! ref = Some rule' →
       ∃ rule, rule_objs demo_heap !! ref = Some rule
               ∧ name rule' = name rule ∧ kind rule' = kind rule
               ∧ logic rule' = logic rule
               ∧ source_module rule' = source_module rule
               ∧ (active rule' = true → active rule = true))
  ∧ (∀ ref, is_active demo_heap ref = false → is_active (deactivate 2 demo_heap) ref = false)
  ∧ (∀ target, active_reachable (deactivate 2 demo_heap) target
               ⊆ active_reachable demo_heap target).
Proof.
  apply (ValidatorFacts.engine_only_deactivates demo_calls demo_heap
           [true; false; true]).
  vm_compute; reflexivity.
Defined.

Lemma raising_predicate_is_skipped_witness :
  let args := [PyInt 200; PyInt 5] in
  (∀ before after,
     verify demo_heap args (before ++ 1 :: after) = verify demo_heap args (before ++ after))
  ∧ (∀ module_name func_name (func : list PyVal → Z + string) system verdict h' out,
       validate module_name func_name func args system demo_heap
       = Some (verdict, h', out) →
       rule_objs h' !! 1
       = Some (mkRule "positive" SOFT (_resolve_logic "positive") "Finance" true)
       ∧ validate module_name func_name func args system (deactivate 1 demo_heap)
         = Some (verdict, deactivate 1 h', out)).
Proof.
  apply (ValidatorFacts.raising_predicate_is_skipped (Res := Z) (Exn := string)
           [PyInt 200; PyInt 5] demo_heap 1
           (mkRule "positive" SOFT (_resolve_logic "positive") "Finance" true));
    reflexivity.
Defined.

Lemma create_module_existing_witness :
  create_module "Finance" demo_system demo_heap
  = (1, {| modules := modules demo_system; current_module := Some 1 |},
     demo_heap, []).
Proof. apply RegistryFacts.create_module_existing. vm_compute; reflexivity. Defined.

Lemma import_resolved_when_parsed_witness :
  parse_line "    import Finance" (demo_system, demo_heap, [])
  = match get_module demo_system "Finance" with
    | Some imp_mod =>
        Some (demo_system, add_import 0 imp_mod demo_heap,
              [] ++ [MImport "Finance" "CoreMath"])
    | None => Some (demo_system, demo_heap, [] ++ [MImportError "Finance"])
    end
  ∧ (∀ imp_mod, module_objs (add_import 0 imp_mod demo_heap) !! 0
                = Some (mkModule "CoreMath" [0] ([1] ++ [imp_mod])))
  ∧ (∀ (h2 : Heap PyVal) root mr imp mi all_rules,
       names_unique (module_objs h2) = true →
       module_objs h2 !! root = Some mr → imp ∈ imports mr →
       module_objs h2 !! imp = Some mi →
       collect_all (module_objs h2) root = Some all_rules →
       rules mi ⊆ all_rules).
Proof.
  apply (RegistryFacts.import_resolved_when_parsed
           "    import Finance" "Finance" demo_system
           demo_heap [] 0 (mkModule "CoreMath" [0] [1]));
    vm_compute; reflexivity.
Defined.

End Witnesses.

(** * More about [validate] of phi_import_system.py *)
Module ValidatorMore.
Import ImportSystem ImportFacts ValidatorFacts.

Section Validator.
Context {Value Res Exn : Type}.
Implicit Types (h : Heap Value) (system : PhiSystem) (args : list Value)
  (func : list Value → Res + Exn) (rule : Rule Value).

Lemma settle_done h args all_rules :
  verify h args all_rules = Some LoopDone →
  settle h args all_rules = Some (true, h).
Proof.
  induction all_rules as [|r0 rest IH]; simpl; [done|].
  destruct (rule_objs h !! r0) as [rule0|]; [|done].
  destruct (active rule0); simpl; [|done].
  destruct (logic rule0 args) as [[|]|]; try done.
  by destruct (kind rule0).
Qed.

Lemma settle_hard h args all_rules rule :
  verify h args all_rules = Some (LoopHard rule) →
  settle h args all_rules = Some (false, h).
Proof.
  induction all_rules as [|r0 rest IH]; simpl; [done|].
  destruct (rule_objs h !! r0) as [rule0|]; [|done].
  destruct (active rule0); simpl; [|done].
  destruct (logic rule0 args) as [[|]|]; try done.
  by destruct (kind rule0).
Qed.

Lemma settle_soft h args all_rules ref rule :
  verify h args all_rules = Some (LoopSoft ref rule) →
  settle h args all_rules = settle (deactivate ref h) args all_rules.
Proof.
  intros Hv.
  destruct (verify_soft _ _ _ _ _ Hv) as (Hl & Ha & Hk & Hlog & _).
  revert Hv. induction all_rules as [|r0 rest IH]; simpl; [done|].
  destruct (decide (r0 = ref)) as [->|Hne].
  - rewrite Hl, list_lookup_alter_eq, Hl. simpl. rewrite Ha, Hlog, Hk. simpl.
    intros _. done.
  - rewrite list_lookup_alter_ne by done.
    destruct (rule_objs h !! r0) as [rule0|]; [|done].
    destruct (active rule0); simpl; [|done].
    destruct (logic rule0 args) as [[|]|]; try done.
    destruct (kind rule0); [done|]. intros [= E _]. done.
Qed.

Lemma validate_fuel_settles fuel : ∀ module_name func_name func args system h
    target result all_rules verdict h' out,
  get_module system module_name = Some target →
  func args = inl result →
  collect_all (module_objs h) target = Some all_rules →
  validate_fuel fuel module_name func_name func args system h
  = Some (verdict, h', out) →
  settle h args all_rules = Some (verdict, h').
Proof.
  induction fuel as [|fuel IH];
    intros module_name func_name func args system h target result all_rules
           verdict h' out Hg Hf Hc H; [done|].
  simpl in H. rewrite Hg, Hf, Hc in H.
  destruct (verify h args all_rules) as [[|rule|ref rule]|] eqn:Hv; [| | |done].
  - injection H as <- <- <-. by apply settle_done.
  - injection H as <- <- <-. by eapply settle_hard.
  - destruct (validate_fuel fuel _ _ _ _ _ _) as [[[v2 h2] out2]|] eqn:E; [|done].
    injection H as <- <- <-.
    rewrite (settle_soft _ _ _ _ _ Hv).
    by eapply (IH _ _ _ _ _ (deactivate ref h)).
Qed.

(** X1.  Starting over after each relaxation decides and leaves what one scan
    does that relaxes violated soft rules as it goes and stops at the
    first violated hard rule. *)
Theorem validate_is_one_scan module_name func_name func args system h
    target result all_rules :
  heap_ok h = true → system_ok system h = true →
  get_module system module_name = Some target →
  func args = inl result →
  collect_all (module_objs h) target = Some all_rules →
  ∃ verdict h' out,
    validate module_name func_name func args system h = Some (verdict, h', out)
    ∧ settle h args all_rules = Some (verdict, h').
Proof.
  intros Hh Hs Hg Hf Hc.
  destruct (validate_total module_name func_name func args system h Hh Hs)
    as [[[verdict h'] out] E].
  exists verdict, h', out. split; [done|].
  by eapply validate_fuel_settles.
Qed.

Lemma rejection_has_culprit fuel : ∀ module_name func_name func args system h
    target result all_rules h' out,
  get_module system module_name = Some target →
  func args = inl result →
  collect_all (module_objs h) target = Some all_rules →
  validate_fuel fuel module_name func_name func args system h
  = Some (false, h', out) →
  ∃ ref rule, ref ∈ all_rules ∧ rule_objs h !! ref = Some rule
              ∧ active rule = true ∧ kind rule = HARD
              ∧ logic rule args = Some false.
Proof.
  induction fuel as [|fuel IH];
    intros module_name func_name func args system h target result all_rules
           h' out Hg Hf Hc H; [done|].
  simpl in H. rewrite Hg, Hf, Hc in H.
  destruct (verify h args all_rules) as [[|rule|ref rule]|] eqn:Hv; [| | |done].
  - done.
  - apply verify_hard in Hv as (r1 & b & a & -> & _ & Hl1 & Ha1 & Hk1 & Hlog1).
    exists r1, rule. split; [set_solver|done].
  - destruct (validate_fuel fuel _ _ _ _ _ _) as [[[v2 h2] out2]|] eqn:E; [|done].
    injection H as -> <- <-.
    apply verify_soft in Hv as (Hl1 & _).
    destruct (IH _ _ _ _ _ (deactivate ref h) target result all_rules _ _
                 Hg Hf Hc E) as (cref & c & Hin & Hcl & Hca & Hck & Hclog).
    exists cref, c. split; [done|]. split; [|done].
    destruct (decide (cref = ref)) as [->|Hne].
    + rewrite (deactivate_lookup _ _ _ Hl1) in Hcl. by injection Hcl as <-.
    + by rewrite deactivate_lookup_ne in Hcl.
Qed.

(** X2.  A transformation that executes is accepted exactly when no active
    hard rule collected from the module is violated: soft rules never
    cause a rejection. *)
Theorem accepted_iff_no_hard_violation module_name func_name func args system h
    target result all_rules :
  heap_ok h = true → system_ok system h = true →
  get_module system module_name = Some target →
  func args = inl result →
  collect_all (module_objs h) target = Some all_rules →
  ∃ verdict h' out,
    validate module_name func_name func args system h = Some (verdict, h', out)
    ∧ (verdict = true ↔
       ∀ ref rule, ref ∈ all_rules → rule_objs h !! ref = Some rule →
                   active rule = true → kind rule = HARD →
                   logic rule args ≠ Some false).
Proof.
  intros Hh Hs Hg Hf Hc.
  destruct (validate_total module_name func_name func args system h Hh Hs)
    as [[[verdict h'] out] E].
  exists verdict, h', out. split; [done|]. split.
  - intros -> ref rule Hin Hl Ha Hk Hlog.
    by destruct (hard_rule_rejects _ _ _ _ _ _ _ _ _ _ _ _ _ _ _
                   Hg Hf Hc Hin Hl Ha Hk Hlog E).
  - intros Hnone. destruct verdict; [done|]. exfalso.
    destruct (rejection_has_culprit _ _ _ _ _ _ _ _ _ _ _ _ Hg Hf Hc E)
      as (ref & rule & Hin & Hl & Ha & Hk & Hlog).
    by eapply Hnone.
Qed.

Lemma final_store_is_settled fuel : ∀ module_name func_name func args system h
    verdict h' out,
  validate_fuel fuel module_name func_name func args system h
  = Some (verdict, h', out) →
  ∃ out', (∀ fuel', validate_fuel (S fuel') module_name func_name func args system h'
                    = Some (verdict, h', out'))
          ∧ restarts out' = 0 ∧ passes out' ≤ 1.
Proof.
  induction fuel as [|fuel IH];
    intros module_name func_name func args system h verdict h' out H; [done|].
  simpl in H.
  destruct (get_module system module_name) as [target|] eqn:Hg.
  2:{ injection H as <- <- <-. eexists. split; [intros fuel'; simpl; by rewrite Hg|cbv; lia]. }
  destruct (func args) as [result|e] eqn:Hf.
  2:{ injection H as <- <- <-. eexists. split; [intros fuel'; simpl; by rewrite Hg, Hf|cbv; lia]. }
  destruct (collect_all _ _) as [all_rules|] eqn:Hc; [|done].
  destruct (verify h args all_rules) as [[|rule|ref rule]|] eqn:Hv; [| | |done].
  - injection H as <- <- <-. eexists.
    split; [intros fuel'; simpl; by rewrite Hg, Hf, Hc, Hv|cbv; lia].
  - injection H as <- <- <-. eexists.
    split; [intros fuel'; simpl; by rewrite Hg, Hf, Hc, Hv|cbv; lia].
  - destruct (validate_fuel fuel _ _ _ _ _ _) as [[[v2 h2] out2]|] eqn:E; [|done].
    injection H as <- <- <-. by eapply IH.
Qed.

(** X3.  Validating again with the same arguments on the store a call leaves
    gives the same verdict in a single pass and changes nothing. *)
Theorem revalidation_is_stable module_name func_name func args system h
    verdict h' out :
  validate module_name func_name func args system h = Some (verdict, h', out) →
  ∃ out', validate module_name func_name func args system h'
          = Some (verdict, h', out')
          ∧ restarts out' = 0 ∧ passes out' ≤ 1.
Proof.
  intros H. apply final_store_is_settled in H as (out' & E & R & P).
  exists out'. split; [|done]. apply E.
Qed.

Lemma validate_fuel_relaxes_violated fuel : ∀ module_name func_name func args
    system h verdict h' out ref rule,
  validate_fuel fuel module_name func_name func args system h
  = Some (verdict, h', out) →
  rule_objs h !! ref = Some rule → active rule = true →
  is_active h' ref = false →
  ∃ target all_rules,
    get_module system module_name = Some target
    ∧ collect_all (module_objs h) target = Some all_rules
    ∧ ref ∈ all_rules ∧ kind rule = SOFT ∧ logic rule args = Some false.
Proof.
  induction fuel as [|fuel IH];
    intros module_name func_name func args system h verdict h' out ref rule
           H Hl Ha Hoff; [done|].
  simpl in H.
  assert (Hon : is_active h ref = true) by (unfold is_active; by rewrite Hl).
  destruct (get_module system module_name) as [target|] eqn:Hg.
  2:{ injection H as <- <- <-. congruence. }
  destruct (func args) as [result|e] eqn:Hf.
  2:{ injection H as <- <- <-. congruence. }
  destruct (collect_all _ _) as [all_rules|] eqn:Hc; [|done].
  destruct (verify h args all_rules) as [[|rule1|ref1 rule1]|] eqn:Hv; [| | |done].
  - injection H as <- <- <-. congruence.
  - injection H as <- <- <-. congruence.
  - destruct (validate_fuel fuel _ _ _ _ _ _) as [[[v2 h2] out2]|] eqn:E; [|done].
    injection H as <- <- <-.
    apply verify_soft in Hv as (Hl1 & Ha1 & Hk1 & Hlog1 & b & a & -> & _).
    exists target, (b ++ ref1 :: a). split; [done|]. split; [done|].
    destruct (decide (ref = ref1)) as [->|Hne].
    + assert (rule1 = rule) as -> by congruence. split; [set_solver|done].
    + assert (Hl' : rule_objs (deactivate ref1 h) !! ref = Some rule)
        by (by rewrite deactivate_lookup_ne).
      destruct (IH _ _ _ _ _ _ _ _ _ _ _ E Hl' Ha Hoff)
        as (t2 & rs2 & Hg2 & Hc2 & Hin & Hk & Hlog).
      assert (t2 = target) as -> by congruence.
      change (module_objs (deactivate ref1 h)) with (module_objs h) in Hc2.
      rewrite Hc in Hc2. by injection Hc2 as <-.
Qed.

(** X4.  [validate] only ever deactivates a rule that the collector reaches
    from the target module, that is soft, and whose predicate returned
    false on the arguments: never a hard rule, never a rule that passes or
    does not apply, never a rule of a module out of reach. *)
Theorem only_violated_soft_rules_relaxed module_name func_name func args system h
    verdict h' out ref rule :
  validate module_name func_name func args system h = Some (verdict, h', out) →
  rule_objs h !! ref = Some rule → active rule = true →
  is_active h' ref = false →
  ∃ target all_rules,
    get_module system module_name = Some target
    ∧ collect_all (module_objs h) target = Some all_rules
    ∧ ref ∈ all_rules ∧ kind rule = SOFT ∧ logic rule args = Some false.
Proof. apply validate_fuel_relaxes_violated. Qed.

Lemma validate_fuel_counts fuel : ∀ module_name func_name func args system h
    verdict h' out,
  validate_fuel fuel module_name func_name func args system h
  = Some (verdict, h', out) →
  count_active (rule_objs h) = count_active (rule_objs h') + restarts out.
Proof.
  induction fuel as [|fuel IH];
    intros module_name func_name func args system h verdict h' out H; [done|].
  simpl in H.
  destruct (get_module system module_name) as [target|].
  2:{ injection H as <- <- <-. cbn. lia. }
  destruct (func args) as [result|e].
  2:{ injection H as <- <- <-. cbn. lia. }
  destruct (collect_all _ _) as [all_rules|]; [|done].
  destruct (verify h args all_rules) as [[|rule|ref rule]|] eqn:Hv; [| | |done].
  - injection H as <- <- <-. cbn. lia.
  - injection H as <- <- <-. cbn. lia.
  - destruct (validate_fuel fuel _ _ _ _ _ _) as [[[v2 h2] out2]|] eqn:E; [|done].
    injection H as <- <- <-.
    apply verify_soft in Hv as (Hl & Ha & _).
    apply IH in E. simpl in E.
    pose proof (count_active_alter _ _ _ Hl Ha) as Hc.
    unfold restarts, count_events in *. simpl. lia.
Qed.

(** X5.  Each restart costs exactly one active rule: the number of restarts
    of a call is the number of rule objects it has deactivated. *)
Theorem restarts_count_deactivations module_name func_name func args system h
    verdict h' out :
  validate module_name func_name func args system h = Some (verdict, h', out) →
  count_active (rule_objs h) = count_active (rule_objs h') + restarts out.
Proof. apply validate_fuel_counts. Qed.

Lemma accepted_store_passes fuel : ∀ module_name func_name func args system h
    target all_rules h' out ref rule',
  get_module system module_name = Some target →
  collect_all (module_objs h) target = Some all_rules →
  validate_fuel fuel module_name func_name func args system h
  = Some (true, h', out) →
  ref ∈ all_rules → rule_objs h' !! ref = Some rule' → active rule' = true →
  logic rule' args ≠ Some false.
Proof.
  induction fuel as [|fuel IH];
    intros module_name func_name func args system h target all_rules h' out
           ref rule' Hg Hc H Hin Hl Ha; [done|].
  simpl in H. rewrite Hg, Hc in H.
  destruct (func args) as [result|e]; [|done].
  destruct (verify h args all_rules) as [[|rule|ref1 rule]|] eqn:Hv; [| | |done].
  - injection H as <- <-. intros Hlog. eapply verify_done; eauto.
  - done.
  - destruct (validate_fuel fuel _ _ _ _ _ _) as [[[v2 h2] out2]|] eqn:E; [|done].
    injection H as -> <- <-.
    by eapply (IH _ _ _ _ _ (deactivate ref1 h)).
Qed.

(** X6.  After an acceptance every rule collected from the module that is
    still active holds of the arguments or does not apply to them. *)
Theorem accepted_means_active_rules_hold module_name func_name func args system h
    target all_rules h' out ref rule' :
  get_module system module_name = Some target →
  collect_all (module_objs h) target = Some all_rules →
  validate module_name func_name func args system h = Some (true, h', out) →
  ref ∈ all_rules → rule_objs h' !! ref = Some rule' → active rule' = true →
  logic rule' args = Some true ∨ logic rule' args = None.
Proof.
  intros Hg Hc H Hin Hl Ha.
  pose proof (accepted_store_passes _ _ _ _ _ _ _ _ _ _ _ _ _ Hg Hc H Hin Hl Ha).
  destruct (logic rule' args) as [[|]|]; auto. done.
Qed.

End Validator.
End ValidatorMore.

(** * More about the collector, the registry and the parser *)
Module StoreFacts.
Import ImportSystem ImportFacts ValidatorFacts.

Section Collector.
Context {Value : Type}.
Implicit Types (h : Heap Value) (mods : list PhiModule).

Lemma rules_disjoint_lookup mods i j mi mj r :
  rules_disjoint mods →
  mods !! i = Some mi → mods !! j = Some mj →
  r ∈ rules mi → r ∈ rules mj → i = j.
Proof.
  unfold rules_disjoint. revert i j.
  induction mods as [|m mods IH]; intros i j ND Hi Hj Hri Hrj; [done|].
  simpl in ND. apply NoDup_app in ND as (ND1 & Hdisj & ND2).
  assert (Hflat : ∀ k mk, mods !! k = Some mk → r ∈ rules mk →
                          r ∈ flat_map rules mods).
  { intros k mk Hk Hr. apply list_elem_of_In, in_flat_map. exists mk.
    split; apply list_elem_of_In; [by eapply list_elem_of_lookup_2|done]. }
  destruct i as [|i], j as [|j]; simpl in *.
  - done.
  - injection Hi as <-. exfalso. eapply Hdisj; eauto.
  - injection Hj as <-. exfalso. eapply Hdisj; eauto.
  - f_equal. by eapply IH.
Qed.

Lemma rules_disjoint_nodup mods i mi :
  rules_disjoint mods → mods !! i = Some mi → NoDup (rules mi).
Proof.
  unfold rules_disjoint. revert i.
  induction mods as [|m mods IH]; intros i ND Hi; [done|].
  simpl in ND. apply NoDup_app in ND as (ND1 & _ & ND2).
  destruct i as [|i]; simpl in *; [by injection Hi as <-|eauto].
Qed.

Lemma collected_nodup mods order :
  rules_disjoint mods → NoDup order →
  NoDup (flat_map (rules_of mods) order).
Proof.
  intros Hd. induction 1 as [|i order Hni ND IH]; simpl; [constructor|].
  apply NoDup_app. split; [|split; [|done]].
  - unfold rules_of. destruct (mods !! i) as [mi|] eqn:Hi; [|constructor].
    by eapply rules_disjoint_nodup.
  - intros r Hr Hr'. apply list_elem_of_In, in_flat_map in Hr' as (j & Hj & Hrj).
    apply list_elem_of_In in Hj, Hrj. unfold rules_of in Hr, Hrj.
    destruct (mods !! i) as [mi|] eqn:Hi; [|by apply elem_of_nil in Hr].
    destruct (mods !! j) as [mj|] eqn:Hmj; [|by apply elem_of_nil in Hrj].
    assert (i = j) by (by eapply rules_disjoint_lookup). by subst.
Qed.

(** X7.  When no rule reference is shared, the collector returns each rule
    once at most: the audit line counts distinct rules. *)
Theorem collector_returns_each_rule_once h target all_rules :
  names_unique (module_objs h) = true →
  rules_disjoint (module_objs h) →
  collect_all (module_objs h) target = Some all_rules →
  NoDup all_rules.
Proof.
  intros Hun Hd Hc. apply bool_decide_eq_true in Hun.
  unfold collect_all in Hc.
  destruct (_collect_rules _ _ _ _) as [[c V']|] eqn:E; [|done].
  injection Hc as <-.
  destruct (collect_sound _ _ _ _ _ E) as (o & D & R). simpl in *. subst c.
  apply collected_nodup; [done|].
  destruct (dfs_fresh _ _ _ _ _ D) as [ND _]. by apply NoDup_fmap_1 in ND.
Qed.

(** X8.  Two modules that import each other, directly or not, are validated
    against the same rules: what the collector returns for one is a
    rearrangement of what it returns for the other. *)
Theorem cycle_members_share_rules h a b rules_a rules_b :
  names_unique (module_objs h) = true →
  reachable (module_objs h) a b → reachable (module_objs h) b a →
  collect_all (module_objs h) a = Some rules_a →
  collect_all (module_objs h) b = Some rules_b →
  rules_a ≡ₚ rules_b.
Proof.
  intros Hun Hab Hba Ha Hb. apply bool_decide_eq_true in Hun.
  unfold collect_all in Ha, Hb.
  destruct (_collect_rules _ _ a _) as [[ca Va]|] eqn:Ea; [|done].
  destruct (_collect_rules _ _ b _) as [[cb Vb]|] eqn:Eb; [|done].
  injection Ha as <-. injection Hb as <-.
  destruct (collect_sound _ _ _ _ _ Ea) as (oa & Da & Ra).
  destruct (collect_sound _ _ _ _ _ Eb) as (ob & Db & Rb).
  simpl in *. subst ca cb.
  assert (Hperm : oa ≡ₚ ob).
  { apply NoDup_Permutation.
    - destruct (dfs_fresh _ _ _ _ _ Da) as [ND _]. by apply NoDup_fmap_1 in ND.
    - destruct (dfs_fresh _ _ _ _ _ Db) as [ND _]. by apply NoDup_fmap_1 in ND.
    - intros j. split; intros Hj.
      + destruct (dfs_reachable _ _ _ _ _ Da j Hj) as (t & Ht & Rt).
        apply list_elem_of_singleton in Ht. subst t.
        apply (dfs_complete _ b _ Vb Hun Db). by etrans.
      + destruct (dfs_reachable _ _ _ _ _ Db j Hj) as (t & Ht & Rt).
        apply list_elem_of_singleton in Ht. subst t.
        apply (dfs_complete _ a _ Va Hun Da). by etrans. }
  by apply Permutation_flat_map.
Qed.

End Collector.

Section Composition.
Context {Value Res Exn : Type}.
Implicit Types (h : Heap Value) (system : PhiSystem).

(** X9.  A violated hard rule of a module imported directly or through other
    modules rejects a transformation validated in the importing module. *)
Theorem imported_hard_rule_rejects module_name func_name
    (func : list Value → Res + Exn) args system h target result j mj ref rule :
  heap_ok h = true → system_ok system h = true →
  names_unique (module_objs h) = true →
  get_module system module_name = Some target →
  func args = inl result →
  reachable (module_objs h) target j →
  module_objs h !! j = Some mj → ref ∈ rules mj →
  rule_objs h !! ref = Some rule →
  active rule = true → kind rule = HARD → logic rule args = Some false →
  ∃ h' out,
    validate module_name func_name func args system h = Some (false, h', out).
Proof.
  intros Hh Hs Hun Hg Hf Hreach Hj Hin Hl Ha Hk Hlog.
  pose proof (system_ok_spec _ _ _ _ Hs Hg) as Ht.
  pose proof (heap_ok_spec _ Hh) as [_ Himp].
  destruct (collect_all_total _ _ Himp Ht) as [all_rules Hc].
  pose proof (reachable_rules_collected _ _ _ _ _ Hun Hreach Hj Hc ref Hin) as Hin'.
  destruct (validate_total module_name func_name func args system h Hh Hs)
    as [[[verdict h'] out] E].
  destruct (hard_rule_rejects _ _ _ _ _ _ _ _ _ _ _ _ _ _ _
              Hg Hf Hc Hin' Hl Ha Hk Hlog E) as [-> _].
  by exists h', out.
Qed.

End Composition.

Section Registry.
Context {Value : Type}.
Implicit Types (h : Heap Value) (system : PhiSystem).

Lemma flat_map_rules_alter_same (f : PhiModule → PhiModule) cur
    (mods : list PhiModule) :
  (∀ m, rules (f m) = rules m) →
  flat_map rules (alter f cur mods) = flat_map rules mods.
Proof.
  intros Hf. revert cur. induction mods as [|m mods IH]; intros [|cur]; simpl;
    try done.
  - by rewrite Hf.
  - f_equal. apply IH.
Qed.

Lemma flat_map_rules_add_rule cur r (mods : list PhiModule) m :
  mods !! cur = Some m →
  flat_map rules (alter (λ m, mkModule (mod_name m) (rules m ++ [r]) (imports m))
                        cur mods)
  ≡ₚ r :: flat_map rules mods.
Proof.
  revert cur. induction mods as [|m0 mods IH]; intros [|cur] Hm; simpl in *;
    try done.
  - rewrite <- app_assoc. simpl. by rewrite <- Permutation_middle.
  - unfold alter in IH. rewrite (IH _ Hm). by rewrite <- Permutation_middle.
Qed.

Lemma well_formed_empty : well_formed empty_system (empty_heap (Value := Value)).
Proof.
  split; [apply store_ok_empty|]. split; [constructor|]. split; done.
Qed.

Lemma create_module_well_formed name system h :
  well_formed system h →
  well_formed (create_module name system h).1.1.2 (create_module name system h).1.2.
Proof.
  intros (Hok & Hd & Hp & Hr).
  split; [by apply create_module_ok|].
  unfold create_module.
  destruct (modules system !! name) as [m|] eqn:E; simpl; [done|].
  split; [|split].
  - unfold rules_disjoint in *. simpl. rewrite flat_map_app. simpl.
    by rewrite app_nil_r.
  - intros i m r Hi Hin. simpl in *.
    apply lookup_app_Some in Hi as [Hi|[_ Hi]]; [by eapply Hp|].
    apply list_lookup_singleton_Some in Hi as [_ <-]. by apply elem_of_nil in Hin.
  - intros n i Hi. simpl in *.
    apply lookup_insert_Some in Hi as [[<- <-]|[_ Hi]].
    + exists (mkModule name [] []). split; [|done].
      rewrite lookup_app_r by done. by rewrite Nat.sub_diag.
    + destruct (Hr _ _ Hi) as (m & Hm & Hn). exists m. split; [|done].
      by apply lookup_app_l_Some.
Qed.

Lemma add_import_well_formed system h cur imp :
  well_formed system h → imp < length (module_objs h) →
  well_formed system (add_import cur imp h).
Proof.
  intros (Hok & Hd & Hp & Hr) Himp.
  split; [by apply add_import_ok|]. unfold add_import.
  split; [|split]; simpl.
  - unfold rules_disjoint. by rewrite flat_map_rules_alter_same.
  - intros i m r. simpl. rewrite list_lookup_alter. case_decide as Hc.
    + subst i. destruct (module_objs h !! cur) as [m0|] eqn:E; [|done].
      simpl. intros [= <-] Hin. simpl in *. by eapply Hp.
    + apply Hp.
  - intros n i Hi. destruct (Hr _ _ Hi) as (m & Hm & Hn). simpl.
    rewrite list_lookup_alter. case_decide as Hc.
    + subst i. rewrite Hm. simpl. eexists. split; [done|]. done.
    + by exists m.
Qed.

Lemma add_rule_well_formed system h cur m name kind logic :
  well_formed system h → module_objs h !! cur = Some m →
  well_formed system (add_rule cur (new_rule name kind logic (mod_name m) h).1
                               (new_rule name kind logic (mod_name m) h).2).
Proof.
  intros (Hok & Hd & Hp & Hr) Hm.
  split; [by apply add_rule_ok|]. unfold add_rule, new_rule.
  split; [|split]; simpl.
  - unfold rules_disjoint in *.
    rewrite (flat_map_rules_add_rule _ _ _ _ Hm). apply NoDup_cons. split; [|done].
    intros Hin. apply list_elem_of_In, in_flat_map in Hin as (m1 & Hm1 & Hr1).
    apply list_elem_of_In, list_elem_of_lookup in Hm1 as [i Hi].
    destruct Hok as (Hmods & _). destruct (Hmods _ _ Hi) as (Hrules & _).
    rewrite Forall_forall in Hrules. apply list_elem_of_In, Hrules in Hr1. lia.
  - intros i m1 r. simpl. rewrite list_lookup_alter. case_decide as Hc.
    + subst i. rewrite Hm. simpl. intros [= <-] Hin. simpl in *.
      apply elem_of_app in Hin as [Hin|Hin].
      * destruct (Hp _ _ _ Hm Hin) as (rule & Hl & Hs). exists rule.
        split; [by apply lookup_app_l_Some|done].
      * apply list_elem_of_singleton in Hin as ->.
        exists (mkRule name kind logic (mod_name m) true). split; [|done].
        rewrite lookup_app_r by done. by rewrite Nat.sub_diag.
    + intros Hi Hin. destruct (Hp _ _ _ Hi Hin) as (rule & Hl & Hs).
      exists rule. split; [by apply lookup_app_l_Some|done].
  - intros n i Hi. destruct (Hr _ _ Hi) as (m1 & Hm1 & Hn). simpl.
    rewrite list_lookup_alter. case_decide as Hc.
    + subst i. rewrite Hm1. simpl. eexists. split; [done|]. done.
    + by exists m1.
Qed.

End Registry.

Lemma parse_instruction_well_formed line system (h : Heap PyVal) out
    system' h' out' :
  well_formed system h →
  _parse_instruction line (system, h, out) = Some (system', h', out') →
  well_formed system' h'.
Proof.
  intros Hok. unfold _parse_instruction.
  destruct (PyStr.startswith line "data"); [by intros [= <- <- <-]|].
  destruct (PyStr.startswith line "axiom"); [|by intros [= <- <- <-]].
  destruct (PyStr.split ":" line) as [|part0 [|part1 parts]]; try done.
  destruct (PyStr.split_ws (PyStr.strip part0)) as [|w0 [|name ws]]; try done.
  destruct (current_module system) as [cur|]; [|done]. simpl.
  destruct (module_objs h !! cur) as [m|] eqn:Hm; [|done]. simpl.
  intros [= <- <- <-]. by apply add_rule_well_formed.
Qed.

Lemma parse_line_well_formed line (st st' : ParseState) :
  well_formed st.1.1 st.1.2 → parse_line line st = Some st' →
  well_formed st'.1.1 st'.1.2.
Proof.
  destruct st as [[system h] out], st' as [[system' h'] out']. simpl.
  intros Hok. unfold parse_line.
  destruct (decide (PyStr.strip line = "")); [by intros [= <- <- <-]|].
  destruct (PyStr.startswith _ "//"); [by intros [= <- <- <-]|].
  destruct (PyStr.startswith _ "module").
  { destruct (PyStr.search_kw "module" _) as [name|]; [|by intros [= <- <- <-]].
    pose proof (create_module_well_formed name system h Hok) as Hc.
    destruct (create_module name system h) as [[[m s1] h1] msgs]. simpl in Hc.
    by intros [= <- <- <-]. }
  destruct (PyStr.startswith _ "import").
  { destruct (PyStr.search_kw "import" _) as [imp_name|]; [|by intros [= <- <- <-]].
    destruct (current_module system) as [cur|]; [|by intros [= <- <- <-]].
    destruct (get_module system imp_name) as [imp_mod|] eqn:Hg;
      [|by intros [= <- <- <-]].
    destruct (module_objs h !! cur) as [m|]; [|done]. simpl.
    intros [= <- <- <-]. apply add_import_well_formed; [done|].
    destruct Hok as ((_ & Hs & _) & _). by eapply Hs. }
  destruct (current_module system) as [cur|] eqn:Ec; [|by intros [= <- <- <-]].
  intros H.
  apply (parse_instruction_well_formed (PyStr.strip line) system h out
           system' h' out'); [done|].
  unfold _parse_instruction. rewrite Ec. exact H.
Qed.

Lemma for_each_parse_well_formed lines : ∀ (st st' : ParseState),
  well_formed st.1.1 st.1.2 → for_each parse_line lines st = Some st' →
  well_formed st'.1.1 st'.1.2.
Proof.
  induction lines as [|line lines IH]; intros st st' Hok H; simpl in H.
  - by injection H as <-.
  - destruct (parse_line line st) as [st1|] eqn:E; [|done].
    eapply IH; [|exact H]. by eapply parse_line_well_formed.
Qed.

(** X10.  Parsing a program text keeps the store well formed: references do
    not dangle, every module object is the one registered under its name
    and every registered name leads to a module of that name (so names
    are unique), no rule is held twice, and every rule names as its
    source the module that holds it. *)
Theorem parse_keeps_store_well_formed code system (h : Heap PyVal) system' h' out :
  well_formed system h →
  parse code system h = Some (system', h', out) →
  well_formed system' h'
  ∧ heap_ok h' = true ∧ system_ok system' h' = true
  ∧ names_unique (module_objs h') = true.
Proof.
  intros Hwf H.
  assert (Hwf' : well_formed system' h').
  { apply (for_each_parse_well_formed _ (system, h, [MAnalysis]) _ Hwf H). }
  split; [done|]. apply store_ok_flags. by destruct Hwf'.
Qed.

Section Validate.
Context {Value Res Exn : Type}.
Implicit Types (h : Heap Value) (system : PhiSystem).

(** X11.  A call of [validate] keeps the store well formed. *)
Theorem validate_keeps_store_well_formed module_name func_name
    (func : list Value → Res + Exn) args system h verdict h' out :
  well_formed system h →
  validate module_name func_name func args system h = Some (verdict, h', out) →
  well_formed system h'.
Proof.
  intros ((Hm & Hs & Hc) & Hd & Hp & Hr) H.
  apply validate_fuel_only_deactivates in H as [Hmods Hrules].
  pose proof (Forall2_length _ _ _ Hrules) as Hlen.
  split; [|split; [|split]].
  - split; [|split]; rewrite Hmods; [|done..].
    intros i m Hi. rewrite <- Hlen. by apply Hm.
  - by rewrite Hmods.
  - intros i m r Hi Hin. rewrite Hmods in Hi.
    destruct (Hp _ _ _ Hi Hin) as (rule & Hl & Hsrc).
    destruct (Forall2_lookup_l _ _ _ _ _ Hrules Hl) as (rule' & Hl' & [->|[_ ->]]).
    + by exists rule.
    + by exists (set_active false rule).
  - intros n i Hi. rewrite Hmods. by apply Hr.
Qed.

End Validate.

Section Growth.
Context {Value : Type}.
Implicit Types (h : Heap Value) (system : PhiSystem).

Lemma store_extends_refl system h : store_extends system h system h.
Proof.
  split; [done|]. split; [|done]. intros i m Hi. by exists m.
Qed.

Lemma store_extends_trans s1 h1 s2 h2 s3 h3 :
  store_extends s1 h1 s2 h2 → store_extends s2 h2 s3 h3 →
  store_extends s1 h1 s3 h3.
Proof.
  intros (R12 & M12 & S12) (R23 & M23 & S23). split; [by etrans|]. split.
  - intros i m Hi. destruct (M12 _ _ Hi) as (m2 & H2 & N2 & P2 & I2).
    destruct (M23 _ _ H2) as (m3 & H3 & N3 & P3 & I3).
    exists m3. split; [done|]. split; [congruence|]. split; by etrans.
  - eauto.
Qed.

Lemma create_module_extends name system h :
  store_extends system h
    (create_module name system h).1.1.2 (create_module name system h).1.2.
Proof.
  unfold create_module.
  destruct (modules system !! name) as [m|] eqn:E; simpl.
  - split; [done|]. split; [|done]. intros i mi Hi. by exists mi.
  - split; [done|]. split.
    + intros i mi Hi. exists mi. simpl. split; [by apply lookup_app_l_Some|done].
    + intros n i Hi. simpl. rewrite lookup_insert_ne; [done|].
      intros Heq. rewrite Heq in E. congruence.
Qed.

Lemma add_import_extends system h cur imp :
  store_extends system h system (add_import cur imp h).
Proof.
  split; [done|]. split; [|done]. intros i m Hi. simpl.
  rewrite list_lookup_alter. case_decide as Hc.
  - subst i. rewrite Hi. simpl. eexists. split; [done|]. simpl.
    split; [done|]. split; [done|]. by apply prefix_app_r.
  - by exists m.
Qed.

Lemma add_rule_extends system h cur name kind logic source :
  store_extends system h system
    (add_rule cur (new_rule name kind logic source h).1
              (new_rule name kind logic source h).2).
Proof.
  split; [by apply prefix_app_r|]. split; [|done]. intros i m Hi. simpl.
  rewrite list_lookup_alter. case_decide as Hc.
  - subst i. rewrite Hi. simpl. eexists. split; [done|]. simpl.
    split; [done|]. split; [by apply prefix_app_r|done].
  - by exists m.
Qed.

End Growth.

Lemma parse_line_extends line (st st' : ParseState) :
  parse_line line st = Some st' →
  store_extends st.1.1 st.1.2 st'.1.1 st'.1.2.
Proof.
  destruct st as [[system h] out], st' as [[system' h'] out']. simpl.
  unfold parse_line.
  destruct (decide (PyStr.strip line = ""));
    [intros [= <- <- <-]; apply store_extends_refl|].
  destruct (PyStr.startswith _ "//");
    [intros [= <- <- <-]; apply store_extends_refl|].
  destruct (PyStr.startswith _ "module").
  { destruct (PyStr.search_kw "module" _) as [name|];
      [|intros [= <- <- <-]; apply store_extends_refl].
    pose proof (create_module_extends name system h) as Hc.
    destruct (create_module name system h) as [[[m s1] h1] msgs]. simpl in Hc.
    by intros [= <- <- <-]. }
  destruct (PyStr.startswith _ "import").
  { destruct (PyStr.search_kw "import" _) as [imp_name|];
      [|intros [= <- <- <-]; apply store_extends_refl].
    destruct (current_module system) as [cur|];
      [|intros [= <- <- <-]; apply store_extends_refl].
    destruct (get_module system imp_name) as [imp_mod|];
      [|intros [= <- <- <-]; apply store_extends_refl].
    destruct (module_objs h !! cur) as [m|]; [|done]. simpl.
    intros [= <- <- <-]. apply add_import_extends. }
  destruct (current_module system) as [cur|] eqn:Ec;
    [|intros [= <- <- <-]; apply store_extends_refl].
  unfold _parse_instruction.
  destruct (PyStr.startswith _ "data");
    [intros [= <- <- <-]; apply store_extends_refl|].
  destruct (PyStr.startswith _ "axiom");
    [|intros [= <- <- <-]; apply store_extends_refl].
  destruct (PyStr.split ":" _) as [|part0 [|part1 parts]]; try done.
  destruct (PyStr.split_ws (PyStr.strip part0)) as [|w0 [|name ws]]; try done.
  simpl.
  destruct (module_objs h !! cur) as [m|]; [|done]. simpl.
  intros [= <- <- <-]. apply add_rule_extends.
Qed.

Lemma for_each_parse_extends lines : ∀ (st st' : ParseState),
  for_each parse_line lines st = Some st' →
  store_extends st.1.1 st.1.2 st'.1.1 st'.1.2.
Proof.
  induction lines as [|line lines IH]; intros st st' H; simpl in H.
  - injection H as <-. apply store_extends_refl.
  - destruct (parse_line line st) as [st1|] eqn:E; [|done].
    eapply store_extends_trans; [by apply (parse_line_extends line)|by apply IH].
Qed.

(** X12.  The parser only adds: after parsing any text every rule object is as
    it was, every module object has its name and its former rules and
    imports at the head of its lists, and every registered name leads to
    the object it led to. *)
Theorem parse_only_adds code system (h : Heap PyVal) system' h' out :
  parse code system h = Some (system', h', out) →
  store_extends system h system' h'.
Proof. intros H. apply (for_each_parse_extends _ (system, h, [MAnalysis]) _ H). Qed.
End StoreFacts.

(** * The parser on lines of given shapes *)
Module ParserFacts.
Import ImportSystem.

Lemma drop_prefix_app kw s : PyStr.drop_prefix kw (kw +:+ s) = Some s.
Proof.
  induction kw as [|c kw IH]; simpl; [done|].
  destruct (decide (c = c)); [done|congruence].
Qed.

Lemma word_is_not_space c : PyStr.isword c = true → PyStr.isspace c = false.
Proof.
  unfold PyStr.isword, PyStr.isspace. generalize (nat_of_ascii c). intros n.
  rewrite !orb_true_iff, !andb_true_iff, !Nat.leb_le, Nat.eqb_eq.
  intros H. apply orb_false_iff. rewrite !andb_false_iff, !Nat.leb_gt. lia.
Qed.

Lemma drop_while_spaces ws s :
  PyStr.all_in PyStr.isspace ws = true →
  PyStr.ends_class PyStr.isspace s = true →
  PyStr.drop_while PyStr.isspace (ws +:+ s) = s.
Proof.
  intros Hws Hs. induction ws as [|c ws IH]; simpl in *.
  - destruct s as [|c s]; [done|]. simpl in *.
    by destruct (PyStr.isspace c).
  - apply andb_true_iff in Hws as [-> Hws]. by apply IH.
Qed.

Lemma take_while_word name rest :
  PyStr.all_in PyStr.isword name = true →
  PyStr.ends_class PyStr.isword rest = true →
  PyStr.take_while PyStr.isword (name +:+ rest) = name.
Proof.
  intros Hn Hr. induction name as [|c name IH]; simpl in *.
  - destruct rest as [|c rest]; [done|]. simpl in *.
    by destruct (PyStr.isword c).
  - apply andb_true_iff in Hn as [-> Hn]. f_equal. by apply IH.
Qed.

(** The pattern [kw\s+(\w+)] matches at the start of a keyword followed
    by whitespace and a word, and group 1 is the whole word. *)
Lemma search_kw_at_start kw ws name rest :
  ws ≠ EmptyString → PyStr.all_in PyStr.isspace ws = true →
  name ≠ EmptyString → PyStr.all_in PyStr.isword name = true →
  PyStr.ends_class PyStr.isword rest = true →
  PyStr.search_kw kw (kw +:+ ws +:+ name +:+ rest) = Some name.
Proof.
  intros Hws Hsp Hname Hw Hrest.
  assert (Hm : PyStr.match_kw kw (kw +:+ ws +:+ name +:+ rest) = Some name).
  { unfold PyStr.match_kw. rewrite drop_prefix_app.
    destruct ws as [|c ws]; [done|]. simpl in Hsp |- *.
    apply andb_true_iff in Hsp as [Hc Hsp]. rewrite Hc.
    rewrite drop_while_spaces; [|done|].
    - rewrite take_while_word by done. by destruct name.
    - destruct name as [|d name]; [done|]. simpl in *.
      apply andb_true_iff in Hw as [Hd _]. by rewrite (word_is_not_space _ Hd). }
  destruct (kw +:+ ws +:+ name +:+ rest); simpl; by rewrite Hm.
Qed.

Lemma startswith_app kw s : PyStr.startswith (kw +:+ s) kw = true.
Proof. unfold PyStr.startswith. by rewrite drop_prefix_app. Qed.

(** X13.  An ASCII line that reads [module], whitespace, a name and
    anything that does not go on the name (as in [module Finance {]) makes
    the named module the current one: the registered object if the name is
    registered, a new empty module registered under the name if not.  The
    line is ASCII so that the name the model reads is the one [\w+]
    matches. *)
Theorem module_line_declares line ws name rest system (h : Heap PyVal) out :
  PyStr.all_in PyStr.isascii line = true →
  PyStr.strip line = "module" +:+ ws +:+ name +:+ rest →
  ws ≠ EmptyString → PyStr.all_in PyStr.isspace ws = true →
  name ≠ EmptyString → PyStr.all_in PyStr.isword name = true →
  PyStr.ends_class PyStr.isword rest = true →
  ∃ m system' h' out',
    parse_line line (system, h, out) = Some (system', h', out')
    ∧ get_module system' name = Some m
    ∧ current_module system' = Some m
    ∧ (get_module system name = Some m ∧ h' = h ∧ out' = out
       ∨ get_module system name = None
         ∧ module_objs h' = module_objs h ++ [mkModule name [] []]
         ∧ m = length (module_objs h)
         ∧ rule_objs h' = rule_objs h
         ∧ out' = out ++ [MCreating name]).
Proof.
  intros _ Hline Hws Hsp Hname Hw Hrest. unfold parse_line. rewrite Hline.
  rewrite (search_kw_at_start "module" ws name rest) by done.
  change (PyStr.startswith ("module" +:+ ws +:+ name +:+ rest) "//") with false.
  rewrite (startswith_app "module").
  destruct (decide (_ = "")) as [E|_]; [done|].
  unfold create_module, get_module.
  destruct (modules system !! name) as [m|] eqn:E.
  - exists m, {| modules := modules system; current_module := Some m |}, h, out.
    split; [by rewrite app_nil_r|]. split; [done|]. split; [done|]. by left.
  - eexists _, _, _, _. split; [reflexivity|]. simpl.
    split; [by rewrite lookup_insert_eq|]. split; [done|]. right. done.
Qed.

Lemma no_module_line_ignored line system (h : Heap PyVal) out :
  current_module system = None →
  PyStr.startswith (PyStr.strip line) "module" = false →
  parse_line line (system, h, out) = Some (system, h, out).
Proof.
  intros Hc Hm. unfold parse_line. rewrite Hm, Hc.
  destruct (decide (_ = "")); [done|].
  destruct (PyStr.startswith _ "//"); [done|].
  destruct (PyStr.startswith _ "import"); [|done].
  by destruct (PyStr.search_kw "import" _).
Qed.

(** X14.  Outside a module nothing is declared: while no module line has been
    read, imports, axioms and data lines are passed over, malformed ones
    included; a text without module lines leaves the state as it is. *)
Theorem text_without_module_declares_nothing code system (h : Heap PyVal) :
  current_module system = None →
  forallb (λ line, negb (PyStr.startswith (PyStr.strip line) "module"))
          (PyStr.split "010" code) = true →
  parse code system h = Some (system, h, [MAnalysis]).
Proof.
  intros Hc. unfold parse. generalize [MAnalysis].
  induction (PyStr.split "010" code) as [|line lines IH]; intros out Hall;
    [done|].
  cbn [forallb] in Hall. cbn [for_each].
  apply andb_true_iff in Hall as [Hl Hall]. apply negb_true_iff in Hl.
  rewrite no_module_line_ignored by done. by apply IH.
Qed.

Lemma split_without_separator sep s :
  PyStr.all_in (λ c, negb (bool_decide (c = sep))) s = true →
  PyStr.split sep s = [s].
Proof.
  induction s as [|c s IH]; simpl; [done|].
  intros H. apply andb_true_iff in H as [Hc Hs].
  apply negb_true_iff, bool_decide_eq_false in Hc.
  destruct (decide (c = sep)); [done|]. by rewrite IH.
Qed.

Lemma startswith_axiom s :
  PyStr.startswith s "axiom" = true →
  s ≠ EmptyString ∧ PyStr.startswith s "//" = false
  ∧ PyStr.startswith s "module" = false ∧ PyStr.startswith s "import" = false
  ∧ PyStr.startswith s "data" = false.
Proof.
  unfold PyStr.startswith.
  destruct s as [|c s]; [done|]. simpl.
  destruct (decide ("a"%char = c)) as [<-|]; [|done].
  intros _. done.
Qed.

(** X15.  An axiom line without a colon stops the parser with the
    [IndexError] of [parts[1]], once a module is current. *)
Theorem axiom_without_colon_raises line system (h : Heap PyVal) out cur :
  current_module system = Some cur →
  PyStr.startswith (PyStr.strip line) "axiom" = true →
  PyStr.all_in (λ c, negb (bool_decide (c = ":"%char))) (PyStr.strip line) = true →
  parse_line line (system, h, out) = None.
Proof.
  intros Hc Ha Hcolon. unfold parse_line.
  destruct (startswith_axiom _ Ha) as (Hne & H1 & H2 & H3 & H4).
  destruct (decide (PyStr.strip line = "")) as [E|_]; [done|].
  rewrite H1, H2, H3, Hc. unfold _parse_instruction.
  rewrite H4, Ha. by rewrite split_without_separator.
Qed.

Section Registry.
Context {Value : Type}.
Implicit Types (h : Heap Value) (system : PhiSystem).

(** X16.  [create_module] then [get_module]: the name leads to the object
    returned, which is current and bears the name; every other name leads
    where it did, and no rule or module object that existed is touched. *)
Theorem create_then_get_module name system h :
  registry_exact system h →
  ∃ m system' h' msgs mm,
    create_module name system h = (m, system', h', msgs)
    ∧ get_module system' name = Some m
    ∧ current_module system' = Some m
    ∧ module_objs h' !! m = Some mm ∧ mod_name mm = name
    ∧ (∀ other, other ≠ name → get_module system' other = get_module system other)
    ∧ rule_objs h' = rule_objs h
    ∧ (∀ i mi, module_objs h !! i = Some mi → module_objs h' !! i = Some mi).
Proof.
  intros Hr. unfold create_module, get_module.
  destruct (modules system !! name) as [m|] eqn:E.
  - destruct (Hr _ _ E) as (mm & Hm & Hn).
    exists m, {| modules := modules system; current_module := Some m |}, h, [], mm.
    done.
  - eexists _, _, _, _, (mkModule name [] []). split; [reflexivity|]. simpl.
    split; [by rewrite lookup_insert_eq|]. split; [done|].
    split; [rewrite lookup_app_r by done; by rewrite Nat.sub_diag|].
    split; [done|]. split; [|split; [done|]].
    + intros other Hne. by rewrite lookup_insert_ne.
    + intros i mi Hi. by apply lookup_app_l_Some.
Qed.

End Registry.
End ParserFacts.

(** * phi_modular_system.py and phi_kernel_poc.py *)
Module VariantFacts.

Section Modular.
Import ModularSystem.
Context {Value Res Exn : Type}.
Implicit Types (h : Heap Value) (system : PhiSystem) (args : list Value)
  (func : list Value → Res + Exn) (rule : Rule Value).

Lemma modular_verify_soft h args rs oks ref rule :
  verify (Res := Res) (Exn := Exn) h args rs = Some (oks, LoopSoft ref rule) →
  ref ∈ rs ∧ rule_objs h !! ref = Some rule ∧ active rule = true
  ∧ kind rule = SOFT ∧ logic rule args = Some false.
Proof.
  revert oks. induction rs as [|r0 rest IH]; intros oks; simpl; [done|].
  destruct (rule_objs h !! r0) as [rule0|] eqn:E0; [|done].
  destruct (active rule0) eqn:Ea; simpl.
  - destruct (logic rule0 args) as [[|]|] eqn:El.
    + destruct (verify h args rest) as [[out ex]|]; [|done].
      intros [= <- ->]. destruct (IH _ eq_refl) as (? & ?). split; [set_solver|done].
    + destruct (kind rule0) eqn:Ek; [done|]. intros [= <- <- <-].
      split; [set_solver|done].
    + intros H. destruct (IH _ H) as (? & ?). split; [set_solver|done].
  - intros H. destruct (IH _ H) as (? & ?). split; [set_solver|done].
Qed.

Lemma modular_validate_fuel_local fuel : ∀ module_name func_name func args system h
    verdict h' out,
  validate_fuel fuel module_name func_name func args system h
  = Some (verdict, h', out) →
  module_objs h' = module_objs h
  ∧ length (rule_objs h') = length (rule_objs h)
  ∧ ∀ ref, rule_objs h' !! ref ≠ rule_objs h !! ref →
      ∃ target m, get_module system module_name = Some target
                  ∧ module_objs h !! target = Some m ∧ ref ∈ rules m.
Proof.
  induction fuel as [|fuel IH];
    intros module_name func_name func args system h verdict h' out H; [done|].
  simpl in H.
  destruct (get_module system module_name) as [target|] eqn:Hg.
  2:{ by injection H as <- <- <-. }
  destruct (func args) as [result|e].
  2:{ by injection H as <- <- <-. }
  destruct (module_objs h !! target) as [m|] eqn:Hm; [|done].
  destruct (verify h args (rules m)) as [[oks [|rule|ref rule]]|] eqn:Hv; [| | |done].
  - by injection H as <- <- <-.
  - by injection H as <- <- <-.
  - destruct (validate_fuel fuel _ _ _ _ _ _) as [[[v2 h2] out2]|] eqn:E; [|done].
    injection H as <- <- <-.
    apply modular_verify_soft in Hv as (Hin & _).
    destruct (IH _ _ _ _ _ _ _ _ _ E) as (Hmods & Hlen & Hloc). simpl in *.
    split; [done|]. split; [by rewrite Hlen, length_alter|].
    intros r Hr. destruct (decide (r = ref)) as [->|Hne].
    + by exists target, m.
    + destruct (Hloc r) as (t & m0 & Ht & Hm0 & Hin0);
        [by rewrite list_lookup_alter_ne|].
      exists t, m0. split; [congruence|done].
Qed.

(** X17.  Validation in a module of the modular variant is local: a rule object
    that differs afterwards is held by that module; the rules that only
    other modules hold are as they were. *)
Theorem modular_validate_is_local module_name func_name func args system h
    verdict h' out :
  validate module_name func_name func args system h = Some (verdict, h', out) →
  module_objs h' = module_objs h
  ∧ ∀ ref, rule_objs h' !! ref ≠ rule_objs h !! ref →
      ∃ target m, get_module system module_name = Some target
                  ∧ module_objs h !! target = Some m ∧ ref ∈ rules m.
Proof.
  intros H. apply modular_validate_fuel_local in H as (Hm & _ & Hl). done.
Qed.

(** X18.  Declaring a module again in the modular variant resets it: right
    after [create_module], validation under that name finds no rule and
    accepts whatever transformation executes. *)
Theorem modular_redeclared_module_accepts name func_name func args system h result :
  func args = inl result →
  ∃ m system' h' msgs,
    create_module name system h = (m, system', h', msgs)
    ∧ validate name func_name func args system' h'
      = Some (true, h', [EValidation name; EFunction func_name;
                         EResult result; EAccept name]).
Proof.
  intros Hf.
  exists (length (module_objs h)),
         {| modules := <[name := length (module_objs h)]> (modules system);
            current_module := Some (length (module_objs h)) |},
         {| rule_objs := rule_objs h;
            module_objs := module_objs h ++ [mkModule name []] |},
         [MCreating name].
  split; [done|]. unfold validate. cbn [validate_fuel]. unfold get_module.
  cbn [modules module_objs]. rewrite lookup_insert_eq, Hf.
  rewrite lookup_app_r by done. by rewrite Nat.sub_diag.
Qed.

End Modular.

Section Lift.
Import Variants.
Context {Value Res Exn : Type}.
Implicit Types (h : ModularSystem.Heap Value) (system : ModularSystem.PhiSystem)
  (args : list Value) (func : list Value → Res + Exn).

Lemma lift_deactivate source ref h :
  ImportSystem.deactivate ref (lift_heap source h)
  = lift_heap source (ModularSystem.deactivate ref h).
Proof.
  unfold ImportSystem.deactivate, lift_heap. simpl. f_equal.
  symmetry. apply list_fmap_alter. by apply Forall_forall.
Qed.

Lemma lift_collect (mods : list ModularSystem.PhiModule) target m :
  mods !! target = Some m →
  ImportSystem.collect_all (lift_module <$> mods) target
  = Some (ModularSystem.rules m).
Proof.
  intros Hm. unfold ImportSystem.collect_all. simpl.
  rewrite list_lookup_fmap, Hm. simpl.
  destruct (decide _) as [Hin|_]; [set_solver|done].
Qed.

Lemma lift_verify source h args rs :
  ImportSystem.verify (lift_heap source h) args rs
  = (λ r, lift_exit source r.2)
      <$> ModularSystem.verify (Res := Res) (Exn := Exn) h args rs.
Proof.
  induction rs as [|r0 rest IH]; simpl; [done|].
  rewrite list_lookup_fmap.
  destruct (ModularSystem.rule_objs h !! r0) as [rule0|]; simpl; [|done].
  destruct (ModularSystem.active rule0); simpl; [|done].
  destruct (ModularSystem.logic rule0 args) as [[|]|]; simpl; try done.
  - rewrite IH. by destruct (ModularSystem.verify h args rest) as [[out ex]|].
  - by destruct (ModularSystem.kind rule0).
Qed.

Lemma lift_validate_fuel source fuel : ∀ module_name func_name func args system h
    verdict h' out,
  ModularSystem.validate_fuel fuel module_name func_name func args system h
  = Some (verdict, h', out) →
  ∃ out',
    ImportSystem.validate_fuel fuel module_name func_name func args
      (lift_system system) (lift_heap source h)
    = Some (verdict, lift_heap source h', out').
Proof.
  induction fuel as [|fuel IH];
    intros module_name func_name func args system h verdict h' out H; [done|].
  simpl in H |- *. unfold ImportSystem.get_module, ModularSystem.get_module in *.
  simpl.
  destruct (ModularSystem.modules system !! module_name) as [target|].
  2:{ injection H as <- <- <-. eauto. }
  destruct (func args) as [result|e].
  2:{ injection H as <- <- <-. eauto. }
  destruct (ModularSystem.module_objs h !! target) as [m|] eqn:Hm; [|done].
  rewrite (lift_collect _ _ _ Hm), lift_verify.
  destruct (ModularSystem.verify h args (ModularSystem.rules m))
    as [[oks [|rule|ref rule]]|]; simpl; [| | |done].
  - injection H as <- <- <-. eauto.
  - injection H as <- <- <-. eauto.
  - destruct (ModularSystem.validate_fuel fuel _ _ _ _ _ _)
      as [[[v2 h2] out2]|] eqn:E; [|done].
    injection H as <- <- <-.
    destruct (IH _ _ _ _ _ _ _ _ _ E) as [out' E'].
    rewrite lift_deactivate, E'. eauto.
Qed.

(** X19.  The import variant extends the modular one: on a store of the
    modular variant read as a store without imports, [validate] of
    [phi_import_system.py] gives the verdict and leaves the rule objects
    that [validate] of [phi_modular_system.py] does. *)
Theorem import_validate_extends_modular source module_name func_name func args
    system h verdict h' out :
  ModularSystem.validate module_name func_name func args system h
  = Some (verdict, h', out) →
  ∃ out',
    ImportSystem.validate module_name func_name func args
      (lift_system system) (lift_heap source h)
    = Some (verdict, lift_heap source h', out').
Proof.
  intros H. unfold ImportSystem.validate.
  cbn [lift_heap ImportSystem.rule_objs]. rewrite length_fmap.
  by eapply lift_validate_fuel.
Qed.

End Lift.

Section Poc.
Import KernelPoc.
Context {Value Res Exn : Type}.
Implicit Types (h : list (Rule Value)) (context : PhiContext)
  (func : list Value → Res + Exn) (rule : Rule Value).

Lemma poc_verify_app h func_name args before rest oks :
  verify (Res := Res) (Exn := Exn) h func_name args before = Some (oks, LoopDone) →
  verify h func_name args (before ++ rest)
  = (λ r, (oks ++ r.1, r.2)) <$> verify h func_name args rest.
Proof.
  revert oks. induction before as [|r0 before IH]; intros oks; simpl.
  - intros [= <-]. by destruct (verify h func_name args rest) as [[o e]|].
  - destruct (h !! r0) as [rule0|]; [|done].
    destruct (active rule0) eqn:Ea; simpl; [|apply IH].
    unfold check. rewrite Ea. simpl.
    destruct (predicate rule0 args) as [[|]|]; [| |done].
    + destruct (verify h func_name args before) as [[o e]|] eqn:Ev; [|done].
      intros [= <- ->]. rewrite (IH _ eq_refl).
      by destruct (verify h func_name args rest) as [[o' e']|].
    + by destruct (propose_fix rule0).
Qed.

(** X20.  In the proof of concept a predicate that raises is not passed over:
    when the loop comes to an active rule whose predicate raises, the
    exception leaves [validate_transformation], after the lines of the
    rules checked before it. *)
Theorem poc_raising_predicate_surfaces func_name func test_data context h
    result before ref rule after oks :
  func test_data = inl result →
  rules context = before ++ ref :: after →
  verify h func_name test_data before = Some (oks, LoopDone) →
  h !! ref = Some rule → active rule = true →
  predicate rule test_data = None →
  validate_transformation func_name func test_data context h
  = Some (Raised, h, [EValidation func_name; ESuccess result] ++ oks).
Proof.
  intros Hf Hr Hb Hl Ha Hp. unfold validate_transformation.
  cbn [validate_transformation_fuel]. rewrite Hf, Hr.
  rewrite (poc_verify_app _ _ _ _ _ _ Hb). cbn [verify]. rewrite Hl, Ha.
  unfold check. rewrite Ha, Hp. simpl. by rewrite app_nil_r.
Qed.

Lemma poc_verify_total h func_name args rs :
  Forall (λ r, r < length h) rs →
  is_Some (verify (Res := Res) (Exn := Exn) h func_name args rs).
Proof.
  induction 1 as [|ref rest Href _ IH]; simpl; [eauto|].
  destruct (lookup_lt_is_Some_2 _ _ Href) as [rule ->].
  destruct (active rule); simpl; [|done].
  destruct (check rule args) as [[|]|]; [| |eauto].
  - destruct IH as [[o e] ->]. eauto.
  - destruct (propose_fix rule); eauto.
Qed.

Lemma poc_verify_relax h func_name args rs oks ref rule :
  verify (Res := Res) (Exn := Exn) h func_name args rs
  = Some (oks, LoopRelax ref rule) →
  h !! ref = Some rule ∧ active rule = true.
Proof.
  revert oks. induction rs as [|r0 rest IH]; intros oks; simpl; [done|].
  destruct (h !! r0) as [rule0|] eqn:E0; [|done].
  destruct (active rule0) eqn:Ea; simpl; [|apply IH].
  destruct (check rule0 args) as [[|]|]; [| |done].
  - destruct (verify h func_name args rest) as [[o e]|]; [|done].
    intros [= <- ->]. by eapply IH.
  - destruct (propose_fix rule0); [|done]. by intros [= <- <- <-].
Qed.

Lemma poc_count_active_alter h ref rule :
  h !! ref = Some rule → active rule = true →
  S (count_active (alter (set_active false) ref h)) = count_active h.
Proof.
  unfold count_active.
  revert ref. induction h as [|r l IH]; intros [|ref] Hl Ha; simpl in *; try done.
  - injection Hl as ->. by rewrite Ha.
  - specialize (IH ref Hl Ha). unfold alter in IH.
    destruct (active r); simpl; lia.
Qed.

Lemma poc_relaxations_app (out1 out2 : list (Event Res Exn)) :
  relaxations (out1 ++ out2) = relaxations out1 + relaxations out2.
Proof. unfold relaxations. by rewrite List.filter_app, length_app. Qed.

Lemma poc_verify_prints_no_relax h func_name args rs oks exit :
  verify (Res := Res) (Exn := Exn) h func_name args rs = Some (oks, exit) →
  relaxations oks = 0.
Proof.
  revert oks. induction rs as [|r0 rest IH]; intros oks; simpl.
  - by intros [= <- <-].
  - destruct (h !! r0) as [rule0|]; [|done].
    destruct (active rule0); simpl; [|apply IH].
    destruct (check rule0 args) as [[|]|].
    + destruct (verify h func_name args rest) as [[o e]|]; [|done].
      intros [= <- <-]. by apply (IH o).
    + destruct (propose_fix rule0); by intros [= <- <-].
    + by intros [= <- <-].
Qed.

Lemma poc_validate_fuel_total fuel : ∀ func_name func test_data context h,
  Forall (λ r, r < length h) (rules context) →
  count_active h < fuel →
  ∃ outcome h' out,
    validate_transformation_fuel fuel func_name func test_data context h
    = Some (outcome, h', out)
    ∧ count_active h = count_active h' + relaxations out.
Proof.
  induction fuel as [|fuel IH]; intros func_name func test_data context h Hv Hc;
    [lia|].
  cbn [validate_transformation_fuel].
  destruct (func test_data) as [result|e]; [|by eexists _, _, _].
  destruct (poc_verify_total h func_name test_data _ Hv) as [[oks ex] Hver].
  rewrite Hver. pose proof (poc_verify_prints_no_relax _ _ _ _ _ _ Hver) as Hno.
  destruct ex as [|rule|ref rule|].
  - eexists _, _, _. split; [done|].
    rewrite !poc_relaxations_app, Hno. cbn. lia.
  - eexists _, _, _. split; [done|].
    rewrite !poc_relaxations_app, Hno. cbn. lia.
  - apply poc_verify_relax in Hver as [Hl Ha].
    pose proof (poc_count_active_alter _ _ _ Hl Ha) as Hcnt.
    destruct (IH func_name func test_data context (alter (set_active false) ref h))
      as (outcome & h' & out' & E & Hn).
    + by rewrite length_alter.
    + lia.
    + rewrite E. eexists _, _, _. split; [done|].
      rewrite !poc_relaxations_app, Hno. cbn. lia.
  - eexists _, _, _. split; [done|].
    rewrite !poc_relaxations_app, Hno. cbn. lia.
Qed.

(** X21.  [validate_transformation] ends, with a verdict or with the exception
    of a predicate, and has then deactivated as many rules as it printed
    relaxations. *)
Theorem poc_validation_ends func_name func test_data context h :
  Forall (λ r, r < length h) (rules context) →
  ∃ outcome h' out,
    validate_transformation func_name func test_data context h
    = Some (outcome, h', out)
    ∧ count_active h = count_active h' + relaxations out.
Proof.
  intros Hv. apply poc_validate_fuel_total; [done|].
  unfold count_active. pose proof (List.filter_length_le active h). lia.
Qed.

End Poc.

(** X22.  The two implementations of the product of 2x2 matrices, the
    unrolled one of the proof of concept and the loops of the modular
    variant, give the same matrix and raise on the same operands. *)
Theorem matrix_products_agree (self other : list (list Z)) :
  KernelPoc.Matrix_mul self other = ModularSystem.Matrix_mul self other.
Proof.
  unfold KernelPoc.Matrix_mul, ModularSystem.Matrix_mul,
    KernelPoc.cell, ModularSystem.cell, ModularSystem.add_to_cell.
  destruct self as [|[|a1 [|b1 r0]] [|[|c1 [|d1 r1]] self]];
    destruct other as [|[|a2 [|b2 s0]] [|[|c2 [|d2 s1]] other]];
    reflexivity.
Qed.
End VariantFacts.

(** * The further statements at the sample stores *)
Module MoreWitnesses.
Import ImportSystem Demo.

Lemma demo_well_formed : well_formed demo_system demo_heap.
Proof.
  assert (Hreg : ∀ name i, modules demo_system !! name = Some i →
                   name = "Finance" ∧ i = 1 ∨ name = "CoreMath" ∧ i = 0).
  { intros name i. unfold demo_system. simpl.
    rewrite lookup_insert_Some, lookup_insert_Some, lookup_empty. naive_solver. }
  split; [|split; [|split]].
  - split; [|split].
    + intros [|[|i]] m; simpl; intros [= <-]; simpl;
        (split; [repeat constructor; lia|]); (split; [repeat constructor; lia|]);
        vm_compute; reflexivity.
    + intros name i Hi. destruct (Hreg _ _ Hi) as [[_ ->]|[_ ->]]; simpl; lia.
    + intros c [= <-]. simpl. lia.
  - unfold rules_disjoint. simpl. repeat (constructor; [set_solver|]). constructor.
  - intros [|[|i]] m r; simpl; intros [= <-]; simpl; intros Hin.
    + apply list_elem_of_singleton in Hin as ->. eexists. split; reflexivity.
    + apply elem_of_cons in Hin as [->|Hin]; [eexists; split; reflexivity|].
      apply list_elem_of_singleton in Hin as ->. eexists. split; reflexivity.
  - intros name i Hi.
    destruct (Hreg _ _ Hi) as [[-> ->]|[-> ->]]; eexists; split; reflexivity.
Qed.

Lemma validate_is_one_scan_witness :
  ∃ verdict h' out,
    validate "Finance" "calc_roi" multiply [PyInt 200; PyInt 0] demo_system demo_heap
    = Some (verdict, h', out)
    ∧ settle demo_heap [PyInt 200; PyInt 0] [1; 2; 0] = Some (verdict, h').
Proof.
  apply (ValidatorMore.validate_is_one_scan "Finance" "calc_roi" multiply
           [PyInt 200; PyInt 0] demo_system demo_heap 1 0%Z [1; 2; 0]);
    vm_compute; reflexivity.
Defined.

Lemma accepted_iff_no_hard_violation_witness :
  ∃ verdict h' out,
    validate "Finance" "calc_roi" multiply [PyInt 200; PyInt 5] demo_system demo_heap
    = Some (verdict, h', out)
    ∧ (verdict = true ↔
       ∀ ref rule, ref ∈ [1; 2; 0] → rule_objs demo_heap !! ref = Some rule →
                   active rule = true → kind rule = HARD →
                   logic rule [PyInt 200; PyInt 5] ≠ Some false).
Proof.
  apply (ValidatorMore.accepted_iff_no_hard_violation "Finance" "calc_roi" multiply
           [PyInt 200; PyInt 5] demo_system demo_heap 1 1000%Z [1; 2; 0]);
    vm_compute; reflexivity.
Defined.

Lemma revalidation_is_stable_witness :
  ∃ out', validate "Finance" "calc_roi" multiply [PyInt 200; PyInt 5] demo_system
                   (deactivate 2 demo_heap)
          = Some (true, deactivate 2 demo_heap, out')
          ∧ restarts out' = 0 ∧ passes out' ≤ 1.
Proof.
  apply (ValidatorMore.revalidation_is_stable "Finance" "calc_roi" multiply
           [PyInt 200; PyInt 5] demo_system demo_heap true (deactivate 2 demo_heap)
           [EValidation "Finance"; EFunction "calc_roi"; EResult 1000%Z; EAudit 3;
            EConflict "bounded" "Finance"; EAIFix;
            EValidation "Finance"; EFunction "calc_roi"; EResult 1000%Z; EAudit 3;
            EAccept]).
  vm_compute; reflexivity.
Defined.

Lemma only_violated_soft_rules_relaxed_witness :
  ∃ target all_rules,
    get_module demo_system "Finance" = Some target
    ∧ collect_all (module_objs demo_heap) target = Some all_rules
    ∧ 2 ∈ all_rules ∧ kind (mkRule "bounded" SOFT bounded "Finance" true) = SOFT
    ∧ logic (mkRule "bounded" SOFT bounded "Finance" true) [PyInt 200; PyInt 5]
      = Some false.
Proof.
  apply (ValidatorMore.only_violated_soft_rules_relaxed (Res := Z) (Exn := string)
           "Finance" "calc_roi" multiply
           [PyInt 200; PyInt 5] demo_system demo_heap true (deactivate 2 demo_heap)
           [EValidation "Finance"; EFunction "calc_roi"; EResult 1000%Z; EAudit 3;
            EConflict "bounded" "Finance"; EAIFix;
            EValidation "Finance"; EFunction "calc_roi"; EResult 1000%Z; EAudit 3;
            EAccept] 2);
    vm_compute; reflexivity.
Defined.

Lemma restarts_count_deactivations_witness :
  count_active (rule_objs demo_heap)
  = count_active (rule_objs (deactivate 2 demo_heap))
    + restarts [EValidation "Finance"; EFunction "calc_roi"; EResult 0%Z; EAudit 3;
                EConflict "bounded" "Finance"; EAIFix;
                EValidation "Finance"; EFunction "calc_roi"; EResult 0%Z; EAudit 3;
                EConflict "nonzero" "CoreMath"; (EStop : Event Z string)].
Proof.
  apply (ValidatorMore.restarts_count_deactivations "Finance" "calc_roi" multiply
           [PyInt 200; PyInt 0] demo_system demo_heap false).
  vm_compute; reflexivity.
Defined.

Lemma accepted_means_active_rules_hold_witness :
  logic (mkRule "positive" SOFT (_resolve_logic "positive") "Finance" true)
        [PyInt 200; PyInt 5] = Some true
  ∨ logic (mkRule "positive" SOFT (_resolve_logic "positive") "Finance" true)
          [PyInt 200; PyInt 5] = None.
Proof.
  apply (ValidatorMore.accepted_means_active_rules_hold (Res := Z) (Exn := string)
           "Finance" "calc_roi" multiply
           [PyInt 200; PyInt 5] demo_system demo_heap 1 [1; 2; 0]
           (deactivate 2 demo_heap)
           [EValidation "Finance"; EFunction "calc_roi"; EResult 1000%Z; EAudit 3;
            EConflict "bounded" "Finance"; EAIFix;
            EValidation "Finance"; EFunction "calc_roi"; EResult 1000%Z; EAudit 3;
            EAccept] 1);
    try (vm_compute; reflexivity).
  repeat constructor.
Defined.

Lemma collector_returns_each_rule_once_witness : NoDup [1; 2; 0].
Proof.
  apply (StoreFacts.collector_returns_each_rule_once demo_heap 1 [1; 2; 0]).
  - vm_compute; reflexivity.
  - unfold rules_disjoint. simpl. repeat (constructor; [set_solver|]). constructor.
  - vm_compute; reflexivity.
Defined.

Lemma demo_edge_0_1 : reachable (module_objs demo_heap) 0 1.
Proof. apply rtc_once. exists (mkModule "CoreMath" [0] [1]). split; [done|set_solver]. Qed.

Lemma demo_edge_1_0 : reachable (module_objs demo_heap) 1 0.
Proof. apply rtc_once. exists (mkModule "Finance" [1; 2] [0]). split; [done|set_solver]. Qed.

Lemma cycle_members_share_rules_witness : [0; 1; 2] ≡ₚ [1; 2; 0].
Proof.
  apply (StoreFacts.cycle_members_share_rules demo_heap 0 1 [0; 1; 2] [1; 2; 0]).
  - vm_compute; reflexivity.
  - exact demo_edge_0_1.
  - exact demo_edge_1_0.
  - vm_compute; reflexivity.
  - vm_compute; reflexivity.
Defined.

Lemma imported_hard_rule_rejects_witness :
  ∃ h' out,
    validate "Finance" "calc_roi" multiply [PyInt 2; PyInt 0] demo_system demo_heap
    = Some (false, h', out).
Proof.
  apply (StoreFacts.imported_hard_rule_rejects "Finance" "calc_roi" multiply
           [PyInt 2; PyInt 0] demo_system demo_heap 1 0%Z 0
           (mkModule "CoreMath" [0] [1]) 0
           (mkRule "nonzero" HARD (_resolve_logic "nonzero") "CoreMath" true));
    try (vm_compute; reflexivity).
  - exact demo_edge_1_0.
  - set_solver.
Defined.

Lemma parse_keeps_store_well_formed_witness :
  ∃ system (h : Heap PyVal) out,
    parse source_code empty_system empty_heap = Some (system, h, out)
    ∧ well_formed system h ∧ heap_ok h = true ∧ system_ok system h = true
    ∧ names_unique (module_objs h) = true.
Proof.
  destruct (parse source_code empty_system empty_heap) as [[[system h] out]|] eqn:E.
  - exists system, h, out. split; [reflexivity|].
    apply (StoreFacts.parse_keeps_store_well_formed source_code empty_system
             empty_heap system h out); [|exact E].
    apply StoreFacts.well_formed_empty.
  - vm_compute in E. discriminate E.
Defined.

Lemma validate_keeps_store_well_formed_witness :
  well_formed demo_system (deactivate 2 demo_heap).
Proof.
  apply (StoreFacts.validate_keeps_store_well_formed (Res := Z) (Exn := string)
           "Finance" "calc_roi" multiply
           [PyInt 200; PyInt 5] demo_system demo_heap true (deactivate 2 demo_heap)
           [EValidation "Finance"; EFunction "calc_roi"; EResult 1000%Z; EAudit 3;
            EConflict "bounded" "Finance"; EAIFix;
            EValidation "Finance"; EFunction "calc_roi"; EResult 1000%Z; EAudit 3;
            EAccept]).
  - exact demo_well_formed.
  - vm_compute; reflexivity.
Defined.

Lemma parse_only_adds_witness :
  store_extends demo_system demo_heap demo_system (add_import 0 1 demo_heap).
Proof.
  apply (StoreFacts.parse_only_adds "    import Finance" demo_system demo_heap
           demo_system (add_import 0 1 demo_heap)
           [MAnalysis; MImport "Finance" "CoreMath"]).
  vm_compute; reflexivity.
Defined.

Lemma module_line_declares_witness :
  ∃ m system' h' out',
    parse_line "    module Finance {" (empty_system, empty_heap, [MAnalysis])
    = Some (system', h', out')
    ∧ get_module system' "Finance" = Some m
    ∧ current_module system' = Some m
    ∧ (get_module empty_system "Finance" = Some m ∧ h' = empty_heap
       ∧ out' = [MAnalysis]
       ∨ get_module empty_system "Finance" = None
         ∧ module_objs h' = module_objs (empty_heap (Value := PyVal))
                            ++ [mkModule "Finance" [] []]
         ∧ m = length (module_objs (empty_heap (Value := PyVal)))
         ∧ rule_objs h' = rule_objs empty_heap
         ∧ out' = [MAnalysis] ++ [MCreating "Finance"]).
Proof.
  apply (ParserFacts.module_line_declares "    module Finance {" " " "Finance" " {"
           empty_system empty_heap [MAnalysis]); done.
Defined.

Lemma text_without_module_declares_nothing_witness :
  parse "axiom nonzero
import CoreMath
data Number" empty_system (empty_heap (Value := PyVal))
  = Some (empty_system, empty_heap, [MAnalysis]).
Proof.
  apply ParserFacts.text_without_module_declares_nothing; reflexivity.
Defined.

Lemma axiom_without_colon_raises_witness :
  parse_line "    axiom nonzero hard" (demo_system, demo_heap, []) = None.
Proof.
  apply (ParserFacts.axiom_without_colon_raises "    axiom nonzero hard"
           demo_system demo_heap [] 0); reflexivity.
Defined.

Lemma create_then_get_module_witness :
  ∃ m system' h' msgs mm,
    create_module "Physics" demo_system demo_heap = (m, system', h', msgs)
    ∧ get_module system' "Physics" = Some m
    ∧ current_module system' = Some m
    ∧ module_objs h' !! m = Some mm ∧ mod_name mm = "Physics"
    ∧ (∀ other, other ≠ "Physics" →
                get_module system' other = get_module demo_system other)
    ∧ rule_objs h' = rule_objs demo_heap
    ∧ (∀ i mi, module_objs demo_heap !! i = Some mi → module_objs h' !! i = Some mi).
Proof.
  apply ParserFacts.create_then_get_module.
  by destruct demo_well_formed as (_ & _ & _ & Hr).
Defined.

Lemma modular_validate_is_local_witness :
  ModularSystem.module_objs (ModularSystem.deactivate 1 modular_heap2)
  = ModularSystem.module_objs modular_heap2
  ∧ ∀ ref, ModularSystem.rule_objs (ModularSystem.deactivate 1 modular_heap2) !! ref
           ≠ ModularSystem.rule_objs modular_heap2 !! ref →
      ∃ target m, ModularSystem.get_module modular_system2 "LinearAlgebra" = Some target
                  ∧ ModularSystem.module_objs modular_heap2 !! target = Some m
                  ∧ ref ∈ ModularSystem.rules m.
Proof.
  apply (VariantFacts.modular_validate_is_local (Res := Z) (Exn := string)
           "LinearAlgebra" "mat_multiply" multiply [PyInt 200; PyInt 5]
           modular_system2 modular_heap2 true (ModularSystem.deactivate 1 modular_heap2)
           [ModularSystem.EValidation "LinearAlgebra";
            ModularSystem.EFunction "mat_multiply"; ModularSystem.EResult 1000%Z;
            ModularSystem.EConflict "bounded" SOFT;
            ModularSystem.EAIFix "LinearAlgebra";
            ModularSystem.EValidation "LinearAlgebra";
            ModularSystem.EFunction "mat_multiply"; ModularSystem.EResult 1000%Z;
            ModularSystem.EAccept "LinearAlgebra"]).
  vm_compute; reflexivity.
Defined.

Lemma modular_redeclared_module_accepts_witness :
  ∃ m system' h' msgs,
    ModularSystem.create_module "LinearAlgebra" modular_system2 modular_heap2
    = (m, system', h', msgs)
    ∧ ModularSystem.validate "LinearAlgebra" "mat_multiply" multiply
        [PyInt 200; PyInt 5] system' h'
      = Some (true, h', [ModularSystem.EValidation "LinearAlgebra";
                         ModularSystem.EFunction "mat_multiply";
                         ModularSystem.EResult 1000%Z;
                         ModularSystem.EAccept "LinearAlgebra"]).
Proof.
  apply VariantFacts.modular_redeclared_module_accepts. reflexivity.
Defined.

Lemma import_validate_extends_modular_witness :
  ∃ out',
    validate "LinearAlgebra" "mat_multiply" multiply [PyInt 200; PyInt 5]
      (Variants.lift_system modular_system2)
      (Variants.lift_heap "LinearAlgebra" modular_heap2)
    = Some (true,
            Variants.lift_heap "LinearAlgebra"
              (ModularSystem.deactivate 1 modular_heap2), out').
Proof.
  apply (VariantFacts.import_validate_extends_modular (Res := Z) (Exn := string)
           "LinearAlgebra" "LinearAlgebra" "mat_multiply" multiply
           [PyInt 200; PyInt 5] modular_system2 modular_heap2 true
           (ModularSystem.deactivate 1 modular_heap2)
           [ModularSystem.EValidation "LinearAlgebra";
            ModularSystem.EFunction "mat_multiply"; ModularSystem.EResult 1000%Z;
            ModularSystem.EConflict "bounded" SOFT;
            ModularSystem.EAIFix "LinearAlgebra";
            ModularSystem.EValidation "LinearAlgebra";
            ModularSystem.EFunction "mat_multiply"; ModularSystem.EResult 1000%Z;
            ModularSystem.EAccept "LinearAlgebra"]).
  vm_compute; reflexivity.
Defined.

Lemma poc_raising_predicate_surfaces_witness :
  KernelPoc.validate_transformation "multiply_numbers" multiply
    [PyInt 2; PyInt 3] poc_context poc_rules
  = Some (KernelPoc.Raised, poc_rules,
          [KernelPoc.EValidation "multiply_numbers"; KernelPoc.ESuccess 6%Z]
          ++ [KernelPoc.EChecking "identity_consistency" true]).
Proof.
  apply (VariantFacts.poc_raising_predicate_surfaces "multiply_numbers" multiply
           [PyInt 2; PyInt 3] poc_context poc_rules 6%Z [0] 1
           (KernelPoc.mkRule "positive" (_resolve_logic "positive") SOFT true) []);
    reflexivity.
Defined.

Lemma poc_validation_ends_witness :
  ∃ outcome h' out,
    KernelPoc.validate_transformation "multiply_numbers" multiply
      [PyInt 2; PyInt 3] poc_context poc_rules
    = Some (outcome, h', out)
    ∧ KernelPoc.count_active poc_rules
      = KernelPoc.count_active h' + KernelPoc.relaxations out.
Proof.
  apply VariantFacts.poc_validation_ends. repeat constructor.
Defined.

End MoreWitnesses.
